(** * buildy: the task Queue of lib/queue.js

    A shallow embedding of [lib/queue.js] and the properties of its
    sequential execution, of its completion and failure handlers and of
    its fork.

    The Queue is a JavaScript object whose methods mutate it, emit events to
    listeners, and call into code that lives outside the file: the runner's
    [exec], the continuations of a fork, [Buildy.factory].  The embedding
    keeps the Queue, the heap of JavaScript objects it reads and the
    chronological trace of everything it sends outside in one [World], and
    writes each method in a state-and-exception monad over that world.

    Calls that leave the file are recorded in the trace and not executed.
    The runner's [exec] is the last thing [run] does, and [run] is the last
    thing [next] and the success handler do, so a runner that signals from
    inside [exec] and one that signals later are the same to the Queue: the
    signal is the next [input] of the world.  Listeners of the events of the
    Queue and the continuations of a fork are taken not to call back into
    the Queue that calls them.  Logging through winston is not part of the
    protocol of the Queue and is left out.  The cursor is a JavaScript
    number that starts at 0 and is only ever incremented; it is a [nat].

    queue.js never writes to a task record or to the array of its ancestry
    once they are made, so both are kept as values.  The events hand the
    ancestry array and the task record themselves to the listeners; a
    listener that wrote to them would change the Queue, and that is not
    represented: the properties below speak of what the methods of the
    Queue do. *)

From Stdlib Require Import ZArith Lia.
From stdpp Require Import base decidable numbers option list strings.

Open Scope string_scope.
Open Scope list_scope.

(** ** JavaScript values and the heap *)

Definition loc := nat.

(** Primitive values are immutable; every object (array, hash, function,
    runner) is reached through a reference, which is its identity. *)
Inductive value :=
| VUndefined
| VNull
| VBoolean (b : bool)
| VNumber (z : Z)
| VString (s : string)
| VRef (l : loc).

#[global] Instance value_eq_dec : EqDecision value.
Proof. solve_decision. Defined.

(** What an object inherits from its prototype, as far as queue.js uses it:
    arrays have [slice], functions have [call], a runner (normally a Buildy
    object) has [exec]; a plain object inherits none of the three.  Other
    kinds of objects (a Buffer, a String object) are not represented. *)
Inductive class := ClassArray | ClassObject | ClassFunction | ClassBuildy.

#[global] Instance class_eq_dec : EqDecision class.
Proof. solve_decision. Defined.

(** An object is its own enumerable properties, in the order [Object.keys]
    lists them (keys are distinct).  An array is its elements, the
    properties "0", "1", ..., and nothing else: properties of another name
    that an array may carry are not represented.  A runner keeps [_state]
    and [_type]. *)
Record object := { class_of : class; props : list (string * value) }.

Definition heap := list object.

Fixpoint lookup_prop (p : string) (ps : list (string * value)) : value :=
  match ps with
  | [] => VUndefined
  | (k, v) :: ps => if String.eqb k p then v else lookup_prop p ps
  end.

(** The own property [p], when there is one. *)
Fixpoint own_prop (p : string) (ps : list (string * value)) : option value :=
  match ps with
  | [] => None
  | (k, v) :: ps => if String.eqb k p then Some v else own_prop p ps
  end.

(** A function, at a location of a heap. *)
Definition is_function (h : heap) (l : loc) : Prop :=
  match h !! l with Some o => class_of o = ClassFunction | None => False end.

#[global] Instance is_function_dec h l : Decision (is_function h l).
Proof. unfold is_function. destruct (h !! l); apply _. Defined.

(** A value that can be called: a reference to a function. *)
Definition callable (h : heap) (v : value) : Prop :=
  match v with VRef l => is_function h l | _ => False end.

#[global] Instance callable_dec h v : Decision (callable h v).
Proof. unfold callable. destruct v; apply _. Defined.

(** [o.m] can be called: [m] is looked up among the own properties of [o]
    first, and an own property hides what the class [c] that has the method
    [m] gives to its objects. *)
Definition responds (h : heap) (o : object) (m : string) (c : class) : Prop :=
  match own_prop m (props o) with
  | Some v => callable h v
  | None => class_of o = c
  end.

#[global] Instance responds_dec h o m c : Decision (responds h o m c).
Proof. unfold responds. destruct (own_prop m (props o)); apply _. Defined.

(** An object with an [exec] that can be called, at a location of a heap:
    a runner. *)
Definition has_exec (h : heap) (l : loc) : Prop :=
  match h !! l with
  | Some o => responds h o "exec" ClassBuildy
  | None => False
  end.

#[global] Instance has_exec_dec h l : Decision (has_exec h l).
Proof. unfold has_exec. destruct (h !! l); apply _. Defined.

(** [v instanceof Object] *)
Definition instanceof_Object (v : value) : bool :=
  match v with VRef _ => true | _ => false end.

(** ** The Queue *)

(** [{type: type, spec: spec}], pushed by [task]. *)
Record Task := { type : value; spec : value }.

#[global] Instance Task_eq_dec : EqDecision Task.
Proof. solve_decision. Defined.

(** The fields the constructor sets, and [_runner] and [_promise], which
    are undefined until [run] assigns them.  A promise is an EventEmitter
    made by [run]; it is identified by its rank among the promises of this
    Queue. *)
Record Queue := {
  _name : value;
  _queue : list Task;
  _queuePosition : nat;
  _queueStack : list value;
  _options : value;
  _runner : value;
  _promise : option nat
}.

(** [new Queue(name, options)] *)
Definition Queue_new (name options : value) : Queue :=
  {| _name := name; _queue := []; _queuePosition := 0; _queueStack := [];
     _options := options; _runner := VUndefined; _promise := None |}.

(** Payloads of the four events of the Queue. *)
Inductive event :=
| taskStarted (queue : value) (stack : list value) (position : nat) (type : value)
| taskComplete (queue : value) (task : option Task) (result : value)
| taskFailed (queue : value) (task : option Task) (result : value)
| queueComplete (queue : value).

(** [Buildy.factory(type, state)]: buildy.js is not part of lib/queue.js, so
    the child worker is kept as the call that makes it. *)
Inductive worker := Buildy_factory (type state : value).

(** What the Queue sends outside, and what ends one of its methods before
    its last statement: an exception, or, for [Outside l m], the call of the
    method [m] that the object at [l] carries as a property of its own --
    code that is not part of queue.js, on whose result the rest of the
    method depends.  The embedding follows the method no further. *)
Inductive exn := TypeError | Error (msg : string) | Outside (l : loc) (m : string).

Inductive effect :=
| Emit (e : event)
| Exec (runner : loc) (type spec : value) (promise : option nat)
| Call (fn : loc) (this : Queue) (childWorker : worker)
| Escaped (e : exn).

Record World := {
  self : Queue;
  store : heap;
  emitters : nat;
  trace : list effect
}.

(** ** The monad of the methods *)

Inductive result (A : Type) := Return (a : A) | Throw (e : exn).
Arguments Return {A} a.
Arguments Throw {A} e.

Definition M (A : Type) := World -> result A * World.

Definition ret {A} (a : A) : M A := fun w => (Return a, w).

Definition bind {A B} (m : M A) (k : A -> M B) : M B := fun w =>
  match m w with
  | (Return a, w') => k a w'
  | (Throw e, w') => (Throw e, w')
  end.

Definition throw {A} (e : exn) : M A := fun w => (Throw e, w).

Declare Scope js_scope.
Delimit Scope js_scope with js.
Notation "x <- m ;; k" := (bind m (fun x => k))
  (at level 100, m at next level, right associativity) : js_scope.
Notation "m ;;; k" := (bind m (fun _ => k))
  (at level 100, right associativity) : js_scope.
Open Scope js_scope.

Definition get_self : M Queue := fun w => (Return (self w), w).

Definition set_self (q : Queue) : M unit := fun w =>
  (Return tt, {| self := q; store := store w; emitters := emitters w; trace := trace w |}).

Definition perform (e : effect) : M unit := fun w =>
  (Return tt, {| self := self w; store := store w; emitters := emitters w;
                 trace := trace w ++ [e] |}).

(** [this.emit(name, payload)] *)
Definition emit (e : event) : M unit := perform (Emit e).

(** [new events.EventEmitter] *)
Definition new_EventEmitter : M nat := fun w =>
  (Return (emitters w),
   {| self := self w; store := store w; emitters := S (emitters w); trace := trace w |}).

(** Allocation of a fresh object. *)
Definition alloc (o : object) : M value := fun w =>
  (Return (VRef (length (store w))),
   {| self := self w; store := store w ++ [o]; emitters := emitters w; trace := trace w |}).

(** [v.p] for a data property [p]: a TypeError on undefined and null,
    undefined when the property is missing. *)
Definition get_property (v : value) (p : string) : M value := fun w =>
  match v with
  | VUndefined | VNull => (Throw TypeError, w)
  | VRef l =>
      match store w !! l with
      | Some o => (Return (lookup_prop p (props o)), w)
      | None => (Return VUndefined, w)
      end
  | _ => (Return VUndefined, w)
  end.

(** [v.slice()], reached only when [v instanceof Object].  An array has
    [Array.prototype.slice], which gives a new array with the same elements.
    Another object has a [slice] only as a property of its own: it is called
    when it is a function, and the call is a TypeError when it is not or
    when there is none. *)
Definition slice (v : value) : M value := fun w =>
  match v with
  | VRef l =>
      match store w !! l with
      | Some o =>
          if decide (class_of o = ClassArray)
          then alloc {| class_of := ClassArray; props := props o |} w
          else
            match own_prop "slice" (props o) with
            | Some f =>
                if decide (callable (store w) f)
                then (Throw (Outside l "slice"), w)
                else (Throw TypeError, w)
            | None => (Throw TypeError, w)
            end
      | None => (Throw TypeError, w)
      end
  | _ => (Throw TypeError, w)
  end.

(** [Object.keys(v)]: the own enumerable property names of an object; a
    TypeError on undefined and null (and, in the ECMAScript 5 this file was
    written for, on every other primitive). *)
Definition Object_keys (v : value) : M (list string) := fun w =>
  match v with
  | VRef l =>
      match store w !! l with
      | Some o => (Return (map fst (props o)), w)
      | None => (Throw TypeError, w)
      end
  | _ => (Throw TypeError, w)
  end.

(** [fn.call(q, childWorker)]: only a function has [call]. *)
Definition call (fn : value) (q : Queue) (childWorker : worker) : M unit := fun w =>
  match fn with
  | VRef l =>
      match store w !! l with
      | Some o =>
          if decide (class_of o = ClassFunction)
          then perform (Call l q childWorker) w
          else (Throw TypeError, w)
      | None => (Throw TypeError, w)
      end
  | _ => (Throw TypeError, w)
  end.

(** [array.forEach(f)] *)
Fixpoint forEach {A} (l : list A) (f : A -> M unit) : M unit :=
  match l with
  | [] => ret tt
  | x :: l => f x ;;; forEach l f
  end.

(** ** The methods of the Queue *)

Definition set_queue (ts : list Task) (q : Queue) : Queue :=
  {| _name := _name q; _queue := ts; _queuePosition := _queuePosition q;
     _queueStack := _queueStack q; _options := _options q;
     _runner := _runner q; _promise := _promise q |}.

Definition set_queuePosition (n : nat) (q : Queue) : Queue :=
  {| _name := _name q; _queue := _queue q; _queuePosition := n;
     _queueStack := _queueStack q; _options := _options q;
     _runner := _runner q; _promise := _promise q |}.

Definition set_queueStack (s : list value) (q : Queue) : Queue :=
  {| _name := _name q; _queue := _queue q; _queuePosition := _queuePosition q;
     _queueStack := s; _options := _options q;
     _runner := _runner q; _promise := _promise q |}.

Definition set_runner (r : value) (q : Queue) : Queue :=
  {| _name := _name q; _queue := _queue q; _queuePosition := _queuePosition q;
     _queueStack := _queueStack q; _options := _options q;
     _runner := r; _promise := _promise q |}.

Definition set_promise (p : option nat) (q : Queue) : Queue :=
  {| _name := _name q; _queue := _queue q; _queuePosition := _queuePosition q;
     _queueStack := _queueStack q; _options := _options q;
     _runner := _runner q; _promise := p |}.

(** [this.f = ...] *)
Definition assign (f : Queue -> Queue) : M unit :=
  this <- get_self ;; set_self (f this).

(** [Queue.prototype.task]: [this._queue.push({type: type, spec: spec})]. *)
Definition task (type spec : value) : M unit :=
  this <- get_self ;;
  set_self (set_queue (_queue this ++ [{| type := type; spec := spec |}]) this).

(** [this._name] inside [eachFork].  The callback is an ordinary function
    that [forEach] calls without a [thisArg] in a file that is not in strict
    mode, so its [this] is the global object and not the Queue; the global
    object has no [_name]. *)
Definition global__name : value := VUndefined.

(** The callback of [Object.keys(forkspec).forEach] in [_fork].  [self] is
    the forking Queue; the child [q] is a new object, known outside only
    through the call of the continuation. *)
Definition eachFork (forkspec runnerType runnerState : value) (qName : string)
  : M unit :=
  self <- get_self ;;
  let q := Queue_new (VString qName) (_options self) in
  let childWorker := Buildy_factory runnerType runnerState in
  let q := set_queueStack (_queueStack q ++ [global__name]) q in
  fn <- get_property forkspec qName ;;
  call fn q childWorker.

(** [Queue.prototype._fork] *)
Definition _fork (forkspec : value) : M unit :=
  this <- get_self ;;
  state <- get_property (_runner this) "_state" ;;
  runnerState <- (if instanceof_Object state then slice state else ret state) ;;
  runnerType <- get_property (_runner this) "_type" ;;
  keys <- Object_keys forkspec ;;
  forEach keys (eachFork forkspec runnerType runnerState).

(** [t.type] and [t.spec] for [t = this._queue[this._queuePosition]], which
    is undefined when the position is not an index of the array. *)
Definition member {A} (f : Task -> A) (t : option Task) : M A :=
  match t with
  | Some t => ret (f t)
  | None => throw TypeError
  end.

(** [this._runner.exec(type, spec, this._promise)]: the [exec] of the
    runner is called when the runner has one, its own or the one a Buildy
    object inherits. *)
Definition exec (type spec : value) : M unit := fun w =>
  match _runner (self w) with
  | VRef l =>
      if decide (has_exec (store w) l)
      then perform (Exec l type spec (_promise (self w))) w
      else (Throw TypeError, w)
  | _ => (Throw TypeError, w)
  end.

(** [Queue.prototype.run].  The two listeners that [run] registers on the
    promise call [_onTaskComplete] and [_onTaskFailed] of this Queue; they
    come into play in [signal] below. *)
Definition run (runner : value) : M unit :=
  this <- get_self ;;
  let t := _queue this !! _queuePosition this in
  t_type <- member type t ;;
  if decide (t_type = VString "fork") then
    t_spec <- member spec t ;;
    _fork t_spec
  else
    p <- new_EventEmitter ;;
    assign (set_promise (Some p)) ;;;
    assign (set_runner runner) ;;;
    (match t with
     | None => throw (Error "Task undefined is undefined")
     | Some _ => ret tt
     end) ;;;
    this <- get_self ;;
    emit (taskStarted (_name this) (_queueStack this) (_queuePosition this) t_type) ;;;
    t_spec <- member spec t ;;
    exec t_type t_spec.

(** [Queue.prototype.next] *)
Definition next : M unit :=
  assign (fun q => set_queuePosition (S (_queuePosition q)) q) ;;;
  this <- get_self ;;
  if decide (_queuePosition this < length (_queue this)) then
    run (_runner this)
  else
    emit (queueComplete (_name this)).

(** [Queue.prototype._onTaskComplete] *)
Definition _onTaskComplete (result : value) : M unit :=
  this <- get_self ;;
  emit (taskComplete (_name this) (_queue this !! _queuePosition this) result) ;;;
  next.

(** [Queue.prototype._onTaskFailed] *)
Definition _onTaskFailed (result : value) : M unit :=
  this <- get_self ;;
  emit (taskFailed (_name this) (_queue this !! _queuePosition this) result).

(** ** The world around the Queue *)

(** The two events a runner emits on a promise. *)
Inductive signal := complete | failed.

(** [promise.emit(s, arg)] reaches the listener [run] registered for [s]. *)
Definition listener (s : signal) (arg : value) : M unit :=
  match s with
  | complete => _onTaskComplete arg
  | failed => _onTaskFailed arg
  end.

(** What reaches the Queue from outside: calls of its public methods, a
    signal on one of its promises, and code outside (the runner at work, a
    listener, a continuation) changing objects of the heap. *)
Inductive input :=
| ITask (type spec : value)
| IRun (runner : value)
| INext
| ISignal (promise : nat) (s : signal) (arg : value)
| IExternal (h : heap).

(** A method called from outside; an exception it throws leaves the Queue
    as the method left it. *)
Definition enter (m : M unit) (w : World) : World :=
  match m w with
  | (Return _, w') => w'
  | (Throw e, w') =>
      {| self := self w'; store := store w'; emitters := emitters w';
         trace := trace w' ++ [Escaped e] |}
  end.

Definition feed1 (w : World) (i : input) : World :=
  match i with
  | ITask type spec => enter (task type spec) w
  | IRun runner => enter (run runner) w
  | INext => enter next w
  | ISignal p s arg =>
      if decide (p < emitters w) then enter (listener s arg) w else w
  | IExternal h =>
      {| self := self w; store := h; emitters := emitters w; trace := trace w |}
  end.

Definition feed (w : World) (ins : list input) : World := fold_left feed1 ins w.

(** A Queue that has sent nothing yet, in a heap [h]. *)
Definition world_of (q : Queue) (h : heap) : World :=
  {| self := q; store := h; emitters := 0; trace := [] |}.

(** [new Queue(name, options).task(...).task(...)] *)
Definition fresh (name options : value) (ts : list Task) (h : heap) : World :=
  feed (world_of (Queue_new name options) h)
       (map (fun t => ITask (type t) (spec t)) ts).

(** ** Reading a trace *)

Definition is_taskStarted (e : effect) : bool :=
  match e with Emit (taskStarted _ _ _ _) => true | _ => false end.

Definition is_taskComplete (e : effect) : bool :=
  match e with Emit (taskComplete _ _ _) => true | _ => false end.

Definition is_queueComplete (e : effect) : bool :=
  match e with Emit (queueComplete _) => true | _ => false end.

Definition count (f : effect -> bool) (tr : list effect) : nat :=
  length (List.filter f tr).

(** The promises that were handed to a runner. *)
Definition dispatched (tr : list effect) : list nat :=
  omap (fun e => match e with Exec _ _ _ p => p | _ => None end) tr.

(** The child workers that were handed to a continuation. *)
Definition workers (tr : list effect) : list worker :=
  omap (fun e => match e with Call _ _ c => Some c | _ => None end) tr.

(** The runner state a child worker was made from. *)
Definition state_of (c : worker) : value :=
  match c with Buildy_factory _ state => state end.

(** The children that were handed to a continuation. *)
Definition children (tr : list effect) : list Queue :=
  omap (fun e => match e with Call _ q _ => Some q | _ => None end) tr.

(** The Queue has completed: it has emitted [queueComplete]. *)
Definition completed (w : World) : Prop := 0 < count is_queueComplete (trace w).

(** ** The contract of the runner

    A runner signals a promise only after [exec] handed it over, and at
    most once.  [drive] lets the world outside act on a Queue under that
    contract; it gives [None] when a signal breaks it. *)

Inductive outside :=
| Mutate (h : heap)
| Signal (p : nat) (s : signal) (arg : value).

Fixpoint drive (w : World) (signalled : list nat) (es : list outside)
  : option World :=
  match es with
  | [] => Some w
  | Mutate h :: es => drive (feed1 w (IExternal h)) signalled es
  | Signal p s arg :: es =>
      if decide (elem_of p (dispatched (trace w)) /\ ~ elem_of p signalled)
      then drive (feed1 w (ISignal p s arg)) (p :: signalled) es
      else None
  end.

Definition is_fork (t : Task) : Prop := type t = VString "fork".

(** ** A run in which every task succeeds *)

(** The runner works (and may change the heap), then signals success on the
    promise of rank [k], [S k], ... *)
Fixpoint successes (k : nat) (hrs : list (heap * value)) : list input :=
  match hrs with
  | [] => []
  | (h, r) :: hrs => IExternal h :: ISignal k complete r :: successes (S k) hrs
  end.

(** The trace of tasks [k], [S k], ... run to success one after the other. *)
Fixpoint in_order (name : value) (stack : list value) (runner : loc) (k : nat)
  (ts : list Task) (results : list value) : list effect :=
  match ts, results with
  | t :: ts, r :: results =>
      Emit (taskStarted name stack k (type t))
      :: Exec runner (type t) (spec t) (Some k)
      :: Emit (taskComplete name (Some t) r)
      :: in_order name stack runner (S k) ts results
  | _, _ => []
  end.

(** ** Sharing between runner states *)

(** The objects a value gives access to: the one it refers to, and those
    its properties give access to. *)
Inductive reaches (h : heap) : value -> loc -> Prop :=
| reaches_here l : reaches h (VRef l) l
| reaches_prop l o k v l' :
    h !! l = Some o -> In (k, v) (props o) -> reaches h v l' ->
    reaches h (VRef l) l'.

(** Two values share mutable identity when some object is reached from both. *)
Definition shares (h : heap) (v1 v2 : value) : Prop :=
  exists l, reaches h v1 l /\ reaches h v2 l.

(** The child that [eachFork] makes for the key [qName]. *)
Definition child (options : value) (qName : string) : Queue :=
  set_queueStack [global__name] (Queue_new (VString qName) options).

(** A hash of queue name => function, as [_fork] expects it. *)
Definition forkspec_of (entries : list (string * loc)) : object :=
  {| class_of := ClassObject;
     props := map (fun kl => (fst kl, VRef (snd kl))) entries |}.

(** ** Worlds that the methods lead to *)

(** The world once [run] has made the promise, bound the runner and
    emitted [taskStarted] for the task [t] at the cursor. *)
Definition started (runner : value) (t : Task) (w : World) : World :=
  {| self := set_runner runner (set_promise (Some (emitters w)) (self w));
     store := store w;
     emitters := S (emitters w);
     trace := trace w ++
       [Emit (taskStarted (_name (self w)) (_queueStack (self w))
                          (_queuePosition (self w)) (type t))] |}.

(** The world once [next] has moved the cursor. *)
Definition advanced (w : World) : World :=
  {| self := set_queuePosition (S (_queuePosition (self w))) (self w);
     store := store w; emitters := emitters w; trace := trace w |}.

(** The world once the Queue has emitted [e]. *)
Definition emitted (e : event) (w : World) : World :=
  {| self := self w; store := store w; emitters := emitters w;
     trace := trace w ++ [Emit e] |}.

(** What [run] sends out for the task [t] at position [k]. *)
Definition dispatch (q : Queue) (l : loc) (k : nat) (t : Task) : list effect :=
  [Emit (taskStarted (_name q) (_queueStack q) k (type t));
   Exec l (type t) (spec t) (Some k)].

(** The Queue [q] with the task at position [k] in the hands of the runner
    [l], on the promise of rank [k]. *)
Definition awaiting (q : Queue) (l : loc) (h : heap) (k : nat)
  (tr : list effect) : World :=
  {| self := set_runner (VRef l) (set_promise (Some k) (set_queuePosition k q));
     store := h; emitters := S k; trace := tr |}.

(** The heap as the runner left it after its last piece of work. *)
Definition heap_after (h0 : heap) (hrs : list (heap * value)) : heap :=
  fold_left (fun _ hr => fst hr) hrs h0.

(** The call of the continuation of one entry of a fork specification. *)
Definition continuation (options type state : value) (kl : string * loc)
  : effect :=
  Call (snd kl) (child options (fst kl)) (Buildy_factory type state).

(** ** Relations between the world before and the world after *)

(** A method keeps a relation between the world before and the world
    after. *)
Definition keeps (R : World -> World -> Prop) {A} (m : M A) : Prop :=
  forall w, R w (snd (m w)).

Definition is_Call (e : effect) : Prop := exists l q c, e = Call l q c.

(** [_fork] leaves the Queue as it is: it allocates, and it calls
    continuations. *)
Definition forked (w w' : World) : Prop :=
  self w' = self w /\ emitters w' = emitters w /\
  exists cs, trace w' = trace w ++ cs /\ Forall is_Call cs.

(** What a method called from outside appended to the trace. *)
Definition appends (w w' : World) (es : list effect) : Prop :=
  trace w' = trace w ++ es.

(** [run] does not touch the tasks, the cursor, the name, the stack or the
    options of the Queue. *)
Definition same_plan (q q' : Queue) : Prop :=
  _queue q' = _queue q /\ _queuePosition q' = _queuePosition q /\
  _name q' = _name q /\ _queueStack q' = _queueStack q /\
  _options q' = _options q.

(** ** Invariants *)

(** A promise that was handed to the runner and has not been signalled. *)
Definition pending (w : World) (signalled : list nat) (p : nat) : Prop :=
  elem_of p (dispatched (trace w)) /\ ~ elem_of p signalled.

(** What holds of a Queue all along a run under the contract of the runner:
    the cursor is in range, it is at the end exactly when the Queue has
    completed (for a Queue that has a task), and at most one promise is
    pending, in which case the cursor is on a task and the Queue has not
    completed. *)
Record orderly (w : World) (signalled : list nat) : Prop := {
  cursor_in_range :
    _queuePosition (self w) <= length (_queue (self w));
  complete_once :
    count is_queueComplete (trace w) <= 1;
  complete_at_end :
    completed w -> _queuePosition (self w) = length (_queue (self w));
  end_is_complete :
    _queuePosition (self w) = length (_queue (self w)) ->
    0 < length (_queue (self w)) -> completed w;
  promises_exist :
    forall p, elem_of p (dispatched (trace w)) -> p < emitters w;
  signalled_exist :
    forall p, elem_of p signalled -> p < emitters w;
  one_pending :
    forall p, pending w signalled p ->
      _queuePosition (self w) < length (_queue (self w)) /\
      count is_queueComplete (trace w) = 0 /\
      forall p', pending w signalled p' -> p' = p
}.

(** The runner of a Queue is undefined until the Queue enters the dispatch
    path of [run], where it emits [taskStarted]. *)
Definition unbound_or_started (w : World) : Prop :=
  _runner (self w) = VUndefined \/ 0 < count is_taskStarted (trace w).

(** ** A build to try the properties on *)

(** A heap with a runner (0) whose state is an array (1) of one array of
    file names (2), two continuations (3, 4) and the fork specification
    [{debug: fn1, min: fn2}] (5). *)
Definition scene : heap :=
  [ {| class_of := ClassBuildy;
       props := [("_state", VRef 1); ("_type", VString "FILES")] |};
    {| class_of := ClassArray; props := [("0", VRef 2)] |};
    {| class_of := ClassArray; props := [("0", VString "a.js")] |};
    {| class_of := ClassFunction; props := [] |};
    {| class_of := ClassFunction; props := [] |};
    forkspec_of [("debug", 3); ("min", 4)] ].

Definition files : Task := {| type := VString "files"; spec := VString "*.js" |}.

Definition concat : Task := {| type := VString "concat"; spec := VNull |}.

Definition write : Task := {| type := VString "write"; spec := VString "out.js" |}.

Definition fork : Task := {| type := VString "fork"; spec := VRef 5 |}.

(** [new Queue('build')] with the given tasks, in the heap [scene]. *)
Definition build (ts : list Task) : World :=
  fresh (VString "build") VUndefined ts scene.

(** The Queue of [build ts], as a value. *)
Definition build_queue (ts : list Task) : Queue :=
  set_queue ts (Queue_new (VString "build") VUndefined).

(** ** Further notions *)

Definition is_taskFailed (e : effect) : bool :=
  match e with Emit (taskFailed _ _ _) => true | _ => false end.

(** What does not set a Queue going: a task appended, a failure signal, a
    change of the heap made outside.  What is left -- a call of [run], a
    call of [next], a success signal -- runs a task or moves the cursor. *)
Definition idle (i : input) : Prop :=
  match i with
  | ITask _ _ => True
  | ISignal _ failed _ => True
  | IExternal _ => True
  | _ => False
  end.

(** A heap with a runner that is a plain object with an [exec] of its own
    (0, its [exec] at 1), and a plain object with no [exec] (2). *)
Definition plain_scene : heap :=
  [ {| class_of := ClassObject;
       props := [("_state", VString "x"); ("exec", VRef 1)] |};
    {| class_of := ClassFunction; props := [] |};
    {| class_of := ClassObject; props := [("_state", VString "x")] |} ].

(** An object all of whose properties are primitives. *)
Definition flat (o : object) : Prop :=
  Forall (fun kv => instanceof_Object (snd kv) = false) (props o).

(** Inputs that are calls into the Queue, not changes of the heap made
    outside. *)
Definition internal (i : input) : Prop :=
  match i with IExternal _ => False | _ => True end.

(** A heap with a runner (0) whose state is an object that is not an array
    (1), a continuation (2), a fork specification whose second entry is
    not a function (3), and a runner (4) whose state is a string. *)
Definition odd_scene : heap :=
  [ {| class_of := ClassBuildy;
       props := [("_state", VRef 1); ("_type", VString "OBJECT")] |};
    {| class_of := ClassObject; props := [("code", VString "x")] |};
    {| class_of := ClassFunction; props := [] |};
    {| class_of := ClassObject;
       props := [("debug", VRef 2); ("min", VString "no");
                 ("lint", VRef 2)] |};
    {| class_of := ClassBuildy;
       props := [("_state", VString "x"); ("_type", VString "STRING")] |} ].

(** A world whose Queue has the single task [t] at its cursor and the
    runner at [r] bound, in the heap [h]. *)
Definition bound (t : Task) (r : loc) (h : heap) : World :=
  world_of (set_runner (VRef r)
              (set_queue [t] (Queue_new (VString "build") VUndefined))) h.

(** A heap with a runner (0) whose state is an array of file names (1), a
    continuation (2) and the fork specification [{debug: fn}] (3). *)
Definition flat_scene : heap :=
  [ {| class_of := ClassBuildy;
       props := [("_state", VRef 1); ("_type", VString "FILES")] |};
    {| class_of := ClassArray;
       props := [("0", VString "a.js"); ("1", VString "b.js")] |};
    {| class_of := ClassFunction; props := [] |};
    forkspec_of [("debug", 2)] ].

(** ** What every method keeps *)

(** What an effect that a Queue sent out while its world went from [w] to
    [w'] is like.  An event carries the name of the Queue; [taskStarted]
    carries its ancestry and the position of a task that is not a fork, at
    or before the cursor; [exec] is given the type and the specification of
    such a task and a promise made in between. *)
Definition sound (w w' : World) (e : effect) : Prop :=
  match e with
  | Emit (taskStarted n s p ty) =>
      n = _name (self w') /\ s = _queueStack (self w') /\
      p <= _queuePosition (self w') /\
      exists t, _queue (self w') !! p = Some t /\ type t = ty /\ ~ is_fork t
  | Emit (taskComplete n _ _) => n = _name (self w')
  | Emit (taskFailed n _ _) => n = _name (self w')
  | Emit (queueComplete n) => n = _name (self w')
  | Exec _ ty sp pr =>
      (exists n, pr = Some n /\ emitters w <= n < emitters w') /\
      exists p t, p <= _queuePosition (self w') /\
                  _queue (self w') !! p = Some t /\
                  type t = ty /\ spec t = sp /\ ~ is_fork t
  | Call _ _ _ => True
  | Escaped _ => True
  end.

(** From [w] to [w'] the Queue kept its name, its ancestry and its options,
    its tasks were only appended to, its cursor did not go back, and what it
    sent out is sound, each promise handed over once. *)
Record evolves (w w' : World) : Prop := {
  same_name : _name (self w') = _name (self w);
  same_stack : _queueStack (self w') = _queueStack (self w);
  same_options : _options (self w') = _options (self w);
  more_tasks : exists ts, _queue (self w') = _queue (self w) ++ ts;
  cursor_on : _queuePosition (self w) <= _queuePosition (self w');
  more_emitters : emitters w <= emitters w';
  more_trace :
    exists es, trace w' = trace w ++ es /\ Forall (sound w w') es /\
               NoDup (dispatched es)
}.

(** From [w] to [w'] objects were only added to the heap. *)
Definition allocates (w w' : World) : Prop :=
  exists ext, store w' = store w ++ ext.

Definition grows (w w' : World) : Prop := evolves w w' /\ allocates w w'.

(** The name and the ancestry that an event carries. *)
Definition carries (name : value) (stack : list value) (e : effect) : Prop :=
  match e with
  | Emit (taskStarted n s _ _) => n = name /\ s = stack
  | Emit (taskComplete n _ _) => n = name
  | Emit (taskFailed n _ _) => n = name
  | Emit (queueComplete n) => n = name
  | _ => True
  end.

(** An announcement ([taskStarted]) or a dispatch ([exec]) of a task of
    the Queue [q] that is not a fork, at or before its cursor, with the type
    (and the specification) of that task. *)
Definition is_for_a_task (q : Queue) (e : effect) : Prop :=
  match e with
  | Emit (taskStarted _ _ p ty) =>
      p <= _queuePosition q /\
      exists t, _queue q !! p = Some t /\ type t = ty /\ ~ is_fork t
  | Exec _ ty sp pr =>
      is_Some pr /\
      exists p t, p <= _queuePosition q /\ _queue q !! p = Some t /\
                  type t = ty /\ spec t = sp /\ ~ is_fork t
  | _ => True
  end.

(** What holds along a run under the contract of the runner of a Queue that
    has a fork at position [k]: the cursor is at or before the fork, the
    Queue has not completed, and a promise is pending only while the cursor
    is before the fork. *)
Definition held_at (k : nat) (w : World) (signalled : list nat) : Prop :=
  orderly w signalled /\
  _queuePosition (self w) <= k /\
  count is_queueComplete (trace w) = 0 /\
  forall p, pending w signalled p -> _queuePosition (self w) < k.

(** * Properties *)

(** ** Reasoning in the monad *)

Lemma bind_Return {A B} (m : M A) (k : A -> M B) w a w' :
  m w = (Return a, w') -> bind m k w = k a w'.
Proof. unfold bind. intros ->. reflexivity. Qed.

Lemma bind_Throw {A B} (m : M A) (k : A -> M B) w e w' :
  m w = (Throw e, w') -> bind m k w = (Throw e, w').
Proof. unfold bind. intros ->. reflexivity. Qed.

(** A method keeps a relation between the world before and the world
    after when each of its steps does. *)
Section Frame.
Variable R : World -> World -> Prop.
Hypothesis R_refl : forall w, R w w.
Hypothesis R_trans : forall w1 w2 w3, R w1 w2 -> R w2 w3 -> R w1 w3.

Lemma keeps_ret {A} (a : A) : keeps R (ret a).
Proof. intros w. apply R_refl. Qed.

Lemma keeps_throw {A} e : keeps R (@throw A e).
Proof. intros w. apply R_refl. Qed.

Lemma keeps_bind {A B} (m : M A) (k : A -> M B) :
  keeps R m -> (forall a, keeps R (k a)) -> keeps R (bind m k).
Proof.
  intros Hm Hk w. unfold bind. specialize (Hm w).
  destruct (m w) as [[a|e] w1]; simpl in *; [|assumption].
  eapply R_trans; [eassumption|]. apply Hk.
Qed.

Lemma keeps_get_self : keeps R get_self.
Proof. intros w. apply R_refl. Qed.

Lemma keeps_get_property v p : keeps R (get_property v p).
Proof.
  intros w. unfold get_property.
  destruct v; try apply R_refl. destruct (store w !! l); apply R_refl.
Qed.

Lemma keeps_Object_keys v : keeps R (Object_keys v).
Proof.
  intros w. unfold Object_keys.
  destruct v; try apply R_refl. destruct (store w !! l); apply R_refl.
Qed.

Lemma keeps_forEach {A} (l : list A) f :
  (forall x, keeps R (f x)) -> keeps R (forEach l f).
Proof.
  intros Hf. induction l as [|x l IH]; simpl.
  - apply keeps_ret.
  - apply keeps_bind; [apply Hf | intros _; exact IH].
Qed.
End Frame.

Lemma forked_refl w : forked w w.
Proof.
  repeat split. exists []. split; [symmetry; apply app_nil_r | constructor].
Qed.

Lemma forked_trans w1 w2 w3 : forked w1 w2 -> forked w2 w3 -> forked w1 w3.
Proof.
  intros (Hs1 & He1 & cs1 & Ht1 & Hc1) (Hs2 & He2 & cs2 & Ht2 & Hc2).
  repeat split; try congruence.
  exists (cs1 ++ cs2). split.
  - rewrite Ht2, Ht1. symmetry. apply app_assoc.
  - apply Forall_app. split; assumption.
Qed.

Lemma forked_slice v : keeps forked (slice v).
Proof.
  intros w. unfold slice.
  destruct v; try apply forked_refl.
  destruct (store w !! l); [|apply forked_refl].
  destruct (decide _);
    [|destruct (own_prop _ _); [destruct (decide _)|]; apply forked_refl].
  simpl. repeat split. exists []. split; [symmetry; apply app_nil_r | constructor].
Qed.

Lemma forked_call fn q c : keeps forked (call fn q c).
Proof.
  intros w. unfold call.
  destruct fn; try apply forked_refl.
  destruct (store w !! l); [|apply forked_refl].
  destruct (decide _); [|apply forked_refl].
  simpl. repeat split. exists [Call l q c]. split; [reflexivity|].
  constructor; [unfold is_Call; eauto | constructor].
Qed.

Ltac forked_step :=
  first
    [ apply (keeps_bind forked forked_trans); [|intros ?]
    | apply (keeps_get_self forked forked_refl)
    | apply (keeps_get_property forked forked_refl)
    | apply (keeps_Object_keys forked forked_refl)
    | apply (keeps_ret forked forked_refl)
    | apply forked_slice
    | apply forked_call ].

Lemma forked_eachFork fs ty st k : keeps forked (eachFork fs ty st k).
Proof. unfold eachFork. repeat forked_step. Qed.

Lemma forked__fork fs : keeps forked (_fork fs).
Proof.
  unfold _fork. repeat forked_step.
  - destruct (instanceof_Object _); forked_step.
  - apply (keeps_forEach forked forked_refl forked_trans).
    intros k. apply forked_eachFork.
Qed.

(** ** The three ways of [run] *)

Lemma run_undefined runner w :
  length (_queue (self w)) <= _queuePosition (self w) ->
  run runner w = (Throw TypeError, w).
Proof.
  intros Hle. unfold run, bind, get_self.
  rewrite (lookup_ge_None_2 _ _ Hle). reflexivity.
Qed.

Lemma run_fork runner w t :
  _queue (self w) !! _queuePosition (self w) = Some t ->
  is_fork t ->
  run runner w = _fork (spec t) w.
Proof.
  intros Ht Hf. unfold run, bind, get_self. rewrite Ht. simpl.
  unfold ret. destruct (decide _) as [_|Hn]; [reflexivity|].
  contradiction.
Qed.

Lemma run_task runner w t :
  _queue (self w) !! _queuePosition (self w) = Some t ->
  ~ is_fork t ->
  run runner w = exec (type t) (spec t) (started runner t w).
Proof.
  intros Ht Hf. unfold run, bind, get_self. rewrite Ht. simpl.
  unfold ret. destruct (decide _) as [Hy|_]; [contradiction|].
  reflexivity.
Qed.

Lemma exec_ok ty sp w l :
  _runner (self w) = VRef l -> has_exec (store w) l ->
  exec ty sp w =
  (Return tt, {| self := self w; store := store w; emitters := emitters w;
                 trace := trace w ++ [Exec l ty sp (_promise (self w))] |}).
Proof.
  unfold exec. intros -> H.
  destruct (decide _); [reflexivity | contradiction].
Qed.

(** [exec] either hands the promise over or throws a TypeError and leaves
    the world as it is. *)
Lemma exec_cases ty sp w :
  (exists l, exec ty sp w =
     (Return tt, {| self := self w; store := store w; emitters := emitters w;
                    trace := trace w ++ [Exec l ty sp (_promise (self w))] |}))
  \/ exec ty sp w = (Throw TypeError, w).
Proof.
  unfold exec. destruct (_runner (self w)); auto.
  destruct (decide _); eauto.
Qed.

Lemma run_dispatch l w t :
  _queue (self w) !! _queuePosition (self w) = Some t ->
  ~ is_fork t ->
  has_exec (store w) l ->
  run (VRef l) w =
  (Return tt,
   {| self := set_runner (VRef l) (set_promise (Some (emitters w)) (self w));
      store := store w;
      emitters := S (emitters w);
      trace := trace w ++
        [Emit (taskStarted (_name (self w)) (_queueStack (self w))
                           (_queuePosition (self w)) (type t));
         Exec l (type t) (spec t) (Some (emitters w))] |}).
Proof.
  intros Ht Hf Hl. rewrite (run_task _ _ _ Ht Hf).
  rewrite (exec_ok _ _ _ l); [|reflexivity|exact Hl].
  simpl. rewrite <- app_assoc. reflexivity.
Qed.

(** ** The handlers and [next] *)

Lemma next_run w :
  S (_queuePosition (self w)) < length (_queue (self w)) ->
  next w = run (_runner (self w)) (advanced w).
Proof.
  intros Hlt. unfold next, bind, assign, get_self, set_self. simpl.
  destruct (decide _) as [_|Hn]; [reflexivity | contradiction].
Qed.

Lemma next_end w :
  length (_queue (self w)) <= S (_queuePosition (self w)) ->
  next w = (Return tt, emitted (queueComplete (_name (self w))) (advanced w)).
Proof.
  intros Hle. unfold next, bind, assign, get_self, set_self. simpl.
  destruct (decide _) as [Hy|_]; [lia | reflexivity].
Qed.

Lemma _onTaskComplete_next result w :
  _onTaskComplete result w =
  next (emitted (taskComplete (_name (self w))
                   (_queue (self w) !! _queuePosition (self w)) result) w).
Proof. reflexivity. Qed.

Lemma _onTaskFailed_emits result w :
  _onTaskFailed result w =
  (Return tt, emitted (taskFailed (_name (self w))
                         (_queue (self w) !! _queuePosition (self w)) result) w).
Proof. reflexivity. Qed.

(** ** What one call of [run] adds to the trace *)

Lemma count_app f tr1 tr2 : count f (tr1 ++ tr2) = count f tr1 + count f tr2.
Proof. unfold count. rewrite List.filter_app, length_app. reflexivity. Qed.

Lemma dispatched_app tr1 tr2 :
  dispatched (tr1 ++ tr2) = dispatched tr1 ++ dispatched tr2.
Proof. apply omap_app. Qed.

Lemma calls_dispatched cs : Forall is_Call cs -> dispatched cs = [].
Proof.
  induction 1 as [|e cs (l & q & c & ->) _ IH]; [reflexivity | exact IH].
Qed.

Lemma calls_count f cs :
  (forall l q c, f (Call l q c) = false) ->
  Forall is_Call cs -> count f cs = 0.
Proof.
  intros Hf. induction 1 as [|e cs (l & q & c & ->) _ IH]; [reflexivity|].
  unfold count in *. simpl. rewrite Hf. exact IH.
Qed.

Lemma same_plan_refl q : same_plan q q.
Proof. repeat split. Qed.

(** Either [run] did not enter the dispatch path (the cursor is out of range
    or at a fork), and then the Queue is as before and nothing but calls of
    continuations went out; or it did, and then the cursor was in range, one
    promise was made, the runner was bound, [taskStarted] was emitted once
    and the promise was handed over unless [exec] threw. *)
Lemma enter_run runner w :
  let w' := enter (run runner) w in
  same_plan (self w) (self w') /\
  exists es, appends w w' es /\ count is_queueComplete es = 0 /\
    count is_taskComplete es = 0 /\
    ((self w' = self w /\ emitters w' = emitters w /\
      dispatched es = [] /\ count is_taskStarted es = 0)
     \/
     (_queuePosition (self w) < length (_queue (self w)) /\
      emitters w' = S (emitters w) /\
      _runner (self w') = runner /\
      count is_taskStarted es = 1 /\
      (dispatched es = [] \/ dispatched es = [emitters w]))).
Proof.
  simpl.
  destruct (_queue (self w) !! _queuePosition (self w)) as [t|] eqn:Ht.
  - destruct (decide (is_fork t)) as [Hf|Hf].
    + (* a fork *)
      unfold enter. rewrite (run_fork _ _ _ Ht Hf).
      pose proof (forked__fork (spec t) w) as (Hs & He & cs & Htr & Hcs).
      assert (Hqc : count is_queueComplete cs = 0) by (apply calls_count; auto).
      assert (Htc : count is_taskComplete cs = 0) by (apply calls_count; auto).
      assert (Hts : count is_taskStarted cs = 0) by (apply calls_count; auto).
      assert (Hd : dispatched cs = []) by (apply calls_dispatched; auto).
      destruct (_fork (spec t) w) as [[[]|e] w1]; simpl in *.
      * split; [rewrite Hs; apply same_plan_refl|].
        exists cs. split; [exact Htr|].
        rewrite Hqc, Htc, Hts, Hd. auto 10.
      * split; [rewrite Hs; apply same_plan_refl|].
        exists (cs ++ [Escaped e]). split.
        { unfold appends. simpl. rewrite Htr, app_assoc. reflexivity. }
        rewrite !count_app, dispatched_app, Hqc, Htc, Hts, Hd. auto 10.
    + (* a task for the runner *)
      pose proof (lookup_lt_Some _ _ _ Ht) as Hlt.
      unfold enter. rewrite (run_task _ _ _ Ht Hf).
      destruct (exec_cases (type t) (spec t) (started runner t w)) as [[l ->]| ->].
      * split; [repeat split|].
        eexists. split.
        { unfold appends. simpl. rewrite <- app_assoc. reflexivity. }
        simpl. do 2 (split; [reflexivity|]). right. auto 10.
      * split; [repeat split|].
        eexists. split.
        { unfold appends. simpl. rewrite <- app_assoc. reflexivity. }
        simpl. do 2 (split; [reflexivity|]). right. auto 10.
  - (* the cursor is out of range *)
    apply lookup_ge_None_1 in Ht.
    unfold enter. rewrite (run_undefined _ _ Ht).
    split; [apply same_plan_refl|].
    exists [Escaped TypeError]. split; [reflexivity|]. auto 10.
Qed.

Lemma enter_ext (m m' : M unit) w w' : m w = m' w' -> enter m w = enter m' w'.
Proof. unfold enter. intros ->. reflexivity. Qed.

(** ** What one signal adds to the trace *)

Lemma enter_failed arg w :
  enter (_onTaskFailed arg) w =
  emitted (taskFailed (_name (self w))
             (_queue (self w) !! _queuePosition (self w)) arg) w.
Proof. reflexivity. Qed.

(** A success signal moves the cursor by one; then either the next task is
    run, or the cursor has reached the end and [queueComplete] is emitted. *)
Lemma enter_complete arg w :
  let w' := enter (_onTaskComplete arg) w in
  _queue (self w') = _queue (self w) /\
  _queuePosition (self w') = S (_queuePosition (self w)) /\
  _queueStack (self w') = _queueStack (self w) /\
  exists es, appends w w' es /\ count is_taskComplete es = 1 /\
    ((S (_queuePosition (self w)) < length (_queue (self w)) /\
      count is_queueComplete es = 0 /\
      ((emitters w' = emitters w /\ dispatched es = [] /\
        count is_taskStarted es = 0 /\ _runner (self w') = _runner (self w))
       \/
       (emitters w' = S (emitters w) /\ count is_taskStarted es = 1 /\
        (dispatched es = [] \/ dispatched es = [emitters w]))))
     \/
     (length (_queue (self w)) <= S (_queuePosition (self w)) /\
      count is_queueComplete es = 1 /\ dispatched es = [] /\
      emitters w' = emitters w /\ count is_taskStarted es = 0 /\
      _runner (self w') = _runner (self w))).
Proof.
  simpl. set (w1 := emitted (taskComplete (_name (self w))
                      (_queue (self w) !! _queuePosition (self w)) arg) w).
  destruct (decide (S (_queuePosition (self w)) < length (_queue (self w))))
    as [Hlt|Hge].
  - assert (E : enter (_onTaskComplete arg) w =
                enter (run (_runner (self w1))) (advanced w1)).
    { apply enter_ext. rewrite _onTaskComplete_next. apply next_run, Hlt. }
    rewrite E.
    destruct (enter_run (_runner (self w1)) (advanced w1))
      as ((Hq & Hp & _ & Hst & _) & es & Hes & Hqc & Htc & Hc).
    simpl in *.
    split; [exact Hq|]. split; [exact Hp|]. split; [exact Hst|].
    exists (Emit (taskComplete (_name (self w))
              (_queue (self w) !! _queuePosition (self w)) arg) :: es).
    split; [unfold appends in *; simpl in *; rewrite Hes, <- app_assoc; reflexivity|].
    unfold count in *. simpl. split; [congruence|]. left.
    split; [exact Hlt|]. split; [exact Hqc|].
    destruct Hc as [(Hs & He & Hd & Hts)|(_ & He & Hr & Hts & Hd)].
    + left. rewrite Hs. auto.
    + right. auto.
  - assert (E : enter (_onTaskComplete arg) w =
                emitted (queueComplete (_name (self w))) (advanced w1)).
    { unfold enter. rewrite _onTaskComplete_next. fold w1.
      rewrite (next_end w1) by (simpl; lia). reflexivity. }
    rewrite E. simpl.
    do 3 (split; [reflexivity|]).
    eexists. split; [unfold appends; simpl; rewrite <- app_assoc; reflexivity|].
    simpl. split; [reflexivity|]. right. split; [lia|]. auto 10.
Qed.

(** ** The invariant of a run under the contract of the runner *)

Lemma orderly_step w w' signalled p es :
  orderly w signalled -> pending w signalled p -> appends w w' es ->
  _queue (self w') = _queue (self w) ->
  emitters w <= emitters w' ->
  ((_queuePosition (self w') = _queuePosition (self w) /\
    count is_queueComplete es = 0 /\ dispatched es = [])
   \/
   (_queuePosition (self w') = S (_queuePosition (self w)) /\
    S (_queuePosition (self w)) < length (_queue (self w)) /\
    count is_queueComplete es = 0 /\
    (dispatched es = [] \/
     (dispatched es = [emitters w] /\ emitters w' = S (emitters w))))
   \/
   (_queuePosition (self w') = S (_queuePosition (self w)) /\
    length (_queue (self w)) <= S (_queuePosition (self w)) /\
    count is_queueComplete es = 1 /\ dispatched es = [])) ->
  orderly w' (p :: signalled).
Proof.
  intros [Hr Ho Hc He Hp Hs H1] Hpend Happ Hq Hem Hcases.
  destruct (H1 p Hpend) as (Hlt & Hqc0 & Huniq).
  assert (Hold : forall p', elem_of p' (dispatched (trace w)) ->
                            elem_of p' (p :: signalled)).
  { intros p' Hin. destruct (decide (p' = p)) as [->|Hne]; [left|].
    right. destruct (decide (elem_of p' signalled)) as [|Hn]; [assumption|].
    exfalso. apply Hne, Huniq. split; assumption. }
  unfold completed, appends in *.
  destruct Hcases as [(Hpos & Hqc & Hd)|[(Hpos & Hlt' & Hqc & Hd)|(Hpos & Hge & Hqc & Hd)]].
  - (* the cursor stays *)
    split; rewrite ?Happ, ?count_app, ?dispatched_app, ?Hq, ?Hpos, ?Hqc, ?Hd,
             ?app_nil_r, ?Hqc0; unfold completed; rewrite ?Happ, ?count_app, ?Hqc, ?Hqc0;
      try lia.
    + intros p' Hin. specialize (Hp p' Hin). lia.
    + intros p' [->|Hin]%elem_of_cons; [destruct Hpend as [Hin _]; specialize (Hp _ Hin)
                                      | specialize (Hs _ Hin)]; lia.
    + intros p' [Hin Hn]. rewrite Happ, dispatched_app, Hd, app_nil_r in Hin.
      exfalso. apply Hn, Hold, Hin.
  - (* the cursor moves and stays in range *)
    split; rewrite ?Happ, ?count_app, ?Hq, ?Hpos, ?Hqc, ?Hqc0;
      unfold completed; rewrite ?Happ, ?count_app, ?Hqc, ?Hqc0; try lia.
    + intros p' Hin. rewrite dispatched_app in Hin.
      apply elem_of_app in Hin as [Hin|Hin]; [specialize (Hp p' Hin); lia|].
      destruct Hd as [Hd|[Hd He']]; rewrite Hd in Hin.
      * inversion Hin.
      * apply list_elem_of_singleton in Hin. lia.
    + intros p' [->|Hin]%elem_of_cons; [destruct Hpend as [Hin _]; specialize (Hp _ Hin)
                                      | specialize (Hs _ Hin)]; lia.
    + intros p' [Hin Hn]. split; [lia|]. split; [reflexivity|].
      assert (Hnew : forall x, elem_of x (dispatched (trace w ++ es)) ->
                     ~ elem_of x (p :: signalled) ->
                     dispatched es = [emitters w] /\ x = emitters w).
      { intros x Hx Hnx. rewrite dispatched_app in Hx.
        apply elem_of_app in Hx as [Hx|Hx]; [exfalso; apply Hnx, Hold, Hx|].
        destruct Hd as [Hd|[Hd He']]; rewrite Hd in Hx.
        - inversion Hx.
        - apply list_elem_of_singleton in Hx. auto. }
      rewrite Happ in Hin. destruct (Hnew p' Hin Hn) as [_ ->].
      intros p'' [Hin' Hn']. rewrite Happ in Hin'.
      destruct (Hnew p'' Hin' Hn') as [_ ->]. reflexivity.
  - (* the cursor reaches the end *)
    split; rewrite ?Happ, ?count_app, ?dispatched_app, ?Hq, ?Hpos, ?Hqc, ?Hd,
             ?app_nil_r, ?Hqc0; unfold completed; rewrite ?Happ, ?count_app, ?Hqc, ?Hqc0;
      try lia.
    + intros p' Hin. specialize (Hp p' Hin). lia.
    + intros p' [->|Hin]%elem_of_cons; [destruct Hpend as [Hin _]; specialize (Hp _ Hin)
                                      | specialize (Hs _ Hin)]; lia.
    + intros p' [Hin Hn]. rewrite Happ, dispatched_app, Hd, app_nil_r in Hin.
      exfalso. apply Hn, Hold, Hin.
Qed.

Lemma orderly_start q h runner :
  _queuePosition q = 0 ->
  orderly (feed1 (world_of q h) (IRun runner)) [].
Proof.
  intros Hq0. simpl.
  destruct (enter_run runner (world_of q h))
    as ((Hq & Hp & _) & es & Hes & Hqc & _ & Hc).
  unfold appends in Hes. simpl in *.
  set (w' := enter (run runner) (world_of q h)) in *.
  assert (Hd : dispatched es = [] \/
               (dispatched es = [0] /\ emitters w' = 1 /\ 0 < length (_queue q))).
  { destruct Hc as [(_ & _ & Hd & _)|(Hlt & He & _ & _ & [Hd|Hd])]; auto.
    right. repeat split; [assumption.. | lia]. }
  split; unfold completed; rewrite ?Hes, ?Hqc, ?Hq, ?Hp, ?Hq0; try lia.
  - intros p Hin. destruct Hd as [Hd|(Hd & He & _)]; rewrite Hd in Hin.
    + inversion Hin.
    + apply list_elem_of_singleton in Hin. lia.
  - intros p Hin. inversion Hin.
  - intros p [Hin _]. rewrite Hes in Hin.
    destruct Hd as [Hd|(Hd & He & Hlen)]; rewrite Hd in Hin.
    + inversion Hin.
    + apply list_elem_of_singleton in Hin. subst p.
      split; [exact Hlen|]. split; [reflexivity|].
      intros p' [Hin' _]. rewrite Hes, Hd in Hin'.
      apply list_elem_of_singleton in Hin'. exact Hin'.
Qed.

Lemma orderly_mutate w signalled h :
  orderly w signalled -> orderly (feed1 w (IExternal h)) signalled.
Proof. intros [? ? ? ? ? ? ?]. split; assumption. Qed.

Lemma orderly_signal w signalled p s arg :
  orderly w signalled -> pending w signalled p ->
  orderly (feed1 w (ISignal p s arg)) (p :: signalled).
Proof.
  intros Ho Hpend.
  assert (Hlt : p < emitters w)
    by (apply (promises_exist _ _ Ho), Hpend).
  simpl. destruct (decide (p < emitters w)) as [_|Hn]; [|contradiction].
  destruct s; simpl.
  - destruct (enter_complete arg w) as (Hq & Hp & _ & es & Hes & _ & Hc).
    simpl in Hq, Hp, Hes, Hc.
    apply (orderly_step w _ signalled p es Ho Hpend Hes Hq).
    + destruct Hc as [(_ & _ & [(He & _)|(He & _)])|(_ & _ & _ & He & _)]; lia.
    + destruct Hc as [(Hl & Hqc & Hc)|(Hl & Hqc & Hd & _)].
      * right. left. repeat split; try assumption.
        destruct Hc as [(_ & Hd & _)|(He & _ & [Hd|Hd])]; auto.
      * right. right. auto.
  - rewrite enter_failed.
    eapply (orderly_step w _ signalled p _ Ho Hpend); try reflexivity.
    left. auto.
Qed.

Lemma drive_orderly es : forall w signalled w',
  orderly w signalled -> drive w signalled es = Some w' ->
  exists signalled', orderly w' signalled'.
Proof.
  induction es as [|[h|p s arg] es IH]; intros w signalled w' Ho Hd; simpl in Hd.
  - injection Hd as <-. eauto.
  - eapply IH; [|exact Hd]. apply orderly_mutate, Ho.
  - destruct (decide _) as [Hpend|_]; [|discriminate].
    eapply IH; [|exact Hd]. apply orderly_signal; assumption.
Qed.

(** ** The fork *)

Lemma lookup_prop_forkspec entries k l :
  NoDup (map fst entries) -> In (k, l) entries ->
  lookup_prop k (props (forkspec_of entries)) = VRef l.
Proof.
  simpl. induction entries as [|[k' l'] entries IH]; intros Hnd Hin; [destruct Hin|].
  apply NoDup_cons in Hnd as [Hk' Hnd]. simpl.
  destruct Hin as [[= -> ->]|Hin].
  - rewrite String.eqb_refl. reflexivity.
  - destruct (String.eqb_spec k' k) as [->|_]; [|auto].
    exfalso. apply Hk'. apply list_elem_of_In.
    exact (in_map fst entries (k, l) Hin).
Qed.

Lemma forEach_eachFork f fo ty st entries : forall w,
  store w !! f = Some fo ->
  (forall k l, In (k, l) entries ->
     lookup_prop k (props fo) = VRef l /\ is_function (store w) l) ->
  forEach (map fst entries) (eachFork (VRef f) ty st) w =
  (Return tt,
   {| self := self w; store := store w; emitters := emitters w;
      trace := trace w ++ map (continuation (_options (self w)) ty st) entries |}).
Proof.
  induction entries as [|[k l] entries IH]; intros w Hf Hall; simpl.
  - unfold ret. rewrite app_nil_r. destruct w; reflexivity.
  - destruct (Hall k l (or_introl eq_refl)) as [Hk Hl].
    unfold is_function in Hl.
    destruct (store w !! l) as [lo|] eqn:Hlo; [|contradiction].
    assert (E : eachFork (VRef f) ty st k w =
                (Return tt, {| self := self w; store := store w;
                               emitters := emitters w;
                               trace := trace w ++
                                 [continuation (_options (self w)) ty st (k, l)] |})).
    { unfold eachFork, bind, get_self, get_property, call. simpl.
      rewrite Hf, Hk, Hlo. destruct (decide _); [reflexivity | contradiction]. }
    rewrite (bind_Return _ _ _ _ _ E).
    rewrite IH; simpl; [|exact Hf|intros k' l' Hin; apply Hall; right; exact Hin].
    rewrite <- app_assoc. reflexivity.
Qed.

(** A fork of a Queue whose runner is bound and whose state is a primitive:
    the state itself goes to every child. *)
Lemma _fork_primitive w r ro f entries :
  _runner (self w) = VRef r -> store w !! r = Some ro ->
  store w !! f = Some (forkspec_of entries) ->
  NoDup (map fst entries) ->
  Forall (fun kl => is_function (store w) (snd kl)) entries ->
  instanceof_Object (lookup_prop "_state" (props ro)) = false ->
  _fork (VRef f) w =
  (Return tt,
   {| self := self w; store := store w; emitters := emitters w;
      trace := trace w ++
        map (continuation (_options (self w))
               (lookup_prop "_type" (props ro))
               (lookup_prop "_state" (props ro))) entries |}).
Proof.
  intros Hr Hro Hf Hnd Hfn Hprim.
  unfold _fork, bind, get_self, get_property, Object_keys. simpl.
  rewrite Hr, Hro, Hprim. unfold ret. rewrite Hro, Hf.
  change (map fst (props (forkspec_of entries))) with
    (map fst (map (fun kl : string * loc => (fst kl, VRef (snd kl))) entries)).
  rewrite map_map. simpl.
  apply (forEach_eachFork f (forkspec_of entries)); [exact Hf|].
  intros k l Hin. split; [apply lookup_prop_forkspec; assumption|].
  rewrite List.Forall_forall in Hfn. apply (Hfn (k, l) Hin).
Qed.

(** A fork of a Queue whose runner is bound and whose state is an array:
    one new array with the same elements goes to every child. *)
Lemma _fork_array w r ro f entries a ao :
  _runner (self w) = VRef r -> store w !! r = Some ro ->
  store w !! f = Some (forkspec_of entries) ->
  NoDup (map fst entries) ->
  Forall (fun kl => is_function (store w) (snd kl)) entries ->
  lookup_prop "_state" (props ro) = VRef a ->
  store w !! a = Some ao -> class_of ao = ClassArray ->
  _fork (VRef f) w =
  (Return tt,
   {| self := self w;
      store := store w ++ [{| class_of := ClassArray; props := props ao |}];
      emitters := emitters w;
      trace := trace w ++
        map (continuation (_options (self w))
               (lookup_prop "_type" (props ro))
               (VRef (length (store w)))) entries |}).
Proof.
  intros Hr Hro Hf Hnd Hfn Hst Ha Hcl.
  unfold _fork, bind, get_self, get_property, Object_keys, slice, alloc. simpl.
  rewrite Hr, Hro, Hst. simpl. rewrite Ha.
  destruct (decide _) as [_|Hn]; [|contradiction]. simpl.
  rewrite (lookup_app_l_Some _ _ _ _ Hro). simpl.
  rewrite (lookup_app_l_Some _ _ _ _ Hf).
  change (map fst (props (forkspec_of entries))) with
    (map fst (map (fun kl : string * loc => (fst kl, VRef (snd kl))) entries)).
  rewrite map_map. simpl.
  rewrite (forEach_eachFork f (forkspec_of entries)); simpl; [reflexivity| |].
  - apply lookup_app_l_Some, Hf.
  - intros k l Hin. split; [apply lookup_prop_forkspec; assumption|].
    rewrite List.Forall_forall in Hfn. specialize (Hfn (k, l) Hin).
    unfold is_function in *. simpl in *.
    destruct (store w !! l) as [lo|] eqn:Hlo; [|contradiction].
    rewrite (lookup_app_l_Some _ _ _ _ Hlo). exact Hfn.
Qed.

Lemma workers_continuations options ty st entries :
  workers (map (continuation options ty st) entries) =
  repeat (Buildy_factory ty st) (length entries).
Proof.
  induction entries as [|kl entries IH]; [reflexivity|].
  change (Buildy_factory ty st ::
            workers (map (continuation options ty st) entries) =
          Buildy_factory ty st ::
            repeat (Buildy_factory ty st) (length entries)).
  rewrite IH. reflexivity.
Qed.

(** ** A run, signal after signal *)

Lemma set_queuePosition_same q : set_queuePosition (_queuePosition q) q = q.
Proof. destruct q; reflexivity. Qed.

Lemma run_first q h l t :
  _queuePosition q = 0 -> _queue q !! 0 = Some t -> ~ is_fork t ->
  has_exec h l ->
  feed1 (world_of q h) (IRun (VRef l)) = awaiting q l h 0 (dispatch q l 0 t).
Proof.
  intros Hp Ht Hf Hx. simpl. unfold enter.
  rewrite (run_dispatch l _ t); simpl; rewrite ?Hp; try assumption.
  unfold awaiting.
  replace (set_queuePosition 0 q) with q
    by (rewrite <- Hp; symmetry; apply set_queuePosition_same).
  reflexivity.
Qed.

Lemma success_next q l h h' k tr t t' r :
  _queue q !! k = Some t -> _queue q !! S k = Some t' -> ~ is_fork t' ->
  has_exec h' l ->
  feed (awaiting q l h k tr) [IExternal h'; ISignal k complete r] =
  awaiting q l h' (S k)
    (tr ++ Emit (taskComplete (_name q) (Some t) r) :: dispatch q l (S k) t').
Proof.
  intros Ht Ht' Hf Hx. simpl.
  destruct (decide (k < S k)) as [_|Hn]; [|lia].
  unfold enter. rewrite _onTaskComplete_next. simpl. rewrite Ht.
  rewrite next_run by (simpl; apply (lookup_lt_Some _ _ _ Ht')).
  rewrite (run_dispatch l _ t'); simpl; try assumption.
  unfold awaiting. simpl. rewrite <- app_assoc. reflexivity.
Qed.

Lemma success_last q l h h' k tr t r :
  _queue q !! k = Some t -> length (_queue q) = S k ->
  feed (awaiting q l h k tr) [IExternal h'; ISignal k complete r] =
  {| self := set_queuePosition (S k) (self (awaiting q l h k tr));
     store := h'; emitters := S k;
     trace := tr ++ [Emit (taskComplete (_name q) (Some t) r);
                     Emit (queueComplete (_name q))] |}.
Proof.
  intros Ht Hlen. simpl.
  destruct (decide (k < S k)) as [_|Hn]; [|lia].
  unfold enter. rewrite _onTaskComplete_next. simpl. rewrite Ht.
  rewrite next_end by (simpl; lia).
  unfold emitted, advanced. simpl. rewrite <- app_assoc. reflexivity.
Qed.

Lemma failure_stops q l h h' k tr t e :
  _queue q !! k = Some t ->
  feed (awaiting q l h k tr) [IExternal h'; ISignal k failed e] =
  {| self := self (awaiting q l h k tr); store := h'; emitters := S k;
     trace := tr ++ [Emit (taskFailed (_name q) (Some t) e)] |}.
Proof.
  intros Ht. simpl.
  destruct (decide (k < S k)) as [_|Hn]; [|lia].
  rewrite enter_failed. unfold emitted. simpl. rewrite Ht. reflexivity.
Qed.

Lemma successes_app hrs1 hrs2 : forall k,
  successes k (hrs1 ++ hrs2) =
  successes k hrs1 ++ successes (k + length hrs1) hrs2.
Proof.
  induction hrs1 as [|[h r] hrs1 IH]; intros k; simpl.
  - rewrite Nat.add_0_r. reflexivity.
  - rewrite IH, Nat.add_succ_r. reflexivity.
Qed.

Lemma in_order_snoc name stack l ts t : forall k rs r,
  length ts = length rs ->
  in_order name stack l k (ts ++ [t]) (rs ++ [r]) =
  in_order name stack l k ts rs ++
  [Emit (taskStarted name stack (k + length ts) (type t));
   Exec l (type t) (spec t) (Some (k + length ts));
   Emit (taskComplete name (Some t) r)].
Proof.
  induction ts as [|t0 ts IH]; intros k [|r0 rs] r Hlen; try discriminate; simpl.
  - rewrite Nat.add_0_r. reflexivity.
  - injection Hlen as Hlen. rewrite (IH (S k) rs r Hlen).
    do 3 f_equal. rewrite Nat.add_succ_r. reflexivity.
Qed.

Lemma feed_app w ins1 ins2 : feed w (ins1 ++ ins2) = feed (feed w ins1) ins2.
Proof. apply fold_left_app. Qed.

(** After [j] success signals the tasks before [j] are done, in order, and
    the task at [j] is in the hands of the runner. *)
Lemma succeed_prefix q h0 l hrs :
  _queuePosition q = 0 -> has_exec h0 l ->
  Forall (fun hr => has_exec (fst hr) l) hrs ->
  forall j t, j <= length hrs -> _queue q !! j = Some t ->
  Forall (fun t => ~ is_fork t) (take (S j) (_queue q)) ->
  feed (world_of q h0) (IRun (VRef l) :: successes 0 (take j hrs)) =
  awaiting q l (heap_after h0 (take j hrs)) j
    (in_order (_name q) (_queueStack q) l 0
       (take j (_queue q)) (map snd (take j hrs)) ++ dispatch q l j t).
Proof.
  intros Hp Hx0 Hxs. induction j as [|j IH]; intros t' Hj Ht' Hnf.
  - simpl. apply run_first; try assumption.
    rewrite Forall_forall in Hnf. apply Hnf.
    apply list_elem_of_lookup. exists 0.
    rewrite lookup_take_lt by lia. exact Ht'.
  - destruct (lookup_lt_is_Some_2 hrs j) as [[h r] Hhr]; [lia|].
    destruct (lookup_lt_is_Some_2 (_queue q) j) as [t Ht];
      [apply lookup_lt_Some in Ht'; lia|].
    assert (Hnf' : Forall (fun t => ~ is_fork t) (take (S j) (_queue q))).
    { rewrite Forall_forall in *. intros x Hin. apply Hnf.
      apply list_elem_of_lookup in Hin as [i Hi].
      apply list_elem_of_lookup. exists i.
      pose proof (lookup_lt_Some _ _ _ Hi) as Hlt. rewrite length_take in Hlt.
      rewrite lookup_take_lt in Hi by lia. rewrite lookup_take_lt by lia.
      exact Hi. }
    rewrite (take_S_r _ _ _ Hhr), (take_S_r _ _ _ Ht).
    rewrite successes_app, app_comm_cons. unfold feed at 1.
    rewrite fold_left_app.
    change (fold_left feed1 (IRun (VRef l) :: successes 0 (take j hrs))
              (world_of q h0))
      with (feed (world_of q h0) (IRun (VRef l) :: successes 0 (take j hrs))).
    rewrite (IH t) by (assumption || lia).
    assert (Hlen : length (take j hrs) = j) by (rewrite length_take; lia).
    rewrite Hlen. simpl successes.
    change (fold_left feed1 ?ins ?w) with (feed w ins).
    rewrite (success_next q l _ h j _ t t' r); try assumption.
    + unfold heap_after. rewrite fold_left_app. simpl.
      rewrite map_app. simpl.
      rewrite in_order_snoc
        by (rewrite length_map, !length_take;
            apply lookup_lt_Some in Ht; lia).
      rewrite length_take, Nat.min_l by (apply lookup_lt_Some in Ht; lia).
      simpl. unfold awaiting. f_equal.
      rewrite <- !app_assoc. reflexivity.
    + rewrite Forall_forall in Hnf. apply Hnf.
      apply list_elem_of_lookup. exists (S j).
      rewrite lookup_take_lt by lia. exact Ht'.
    + rewrite Forall_forall in Hxs. apply (Hxs (h, r)).
      apply list_elem_of_lookup. eauto.
Qed.

(** ** Counting in a run in order *)

Lemma in_order_counts name stack l ts : forall k rs,
  length ts = length rs ->
  count is_taskStarted (in_order name stack l k ts rs) = length ts /\
  count is_taskComplete (in_order name stack l k ts rs) = length ts /\
  count is_queueComplete (in_order name stack l k ts rs) = 0 /\
  dispatched (in_order name stack l k ts rs) = seq k (length ts).
Proof.
  induction ts as [|t ts IH]; intros k [|r rs] Hlen; try discriminate.
  - repeat split.
  - injection Hlen as Hlen.
    destruct (IH (S k) rs Hlen) as (Hs & Hc & Hq & Hd).
    unfold count in *. simpl. rewrite Hs, Hc, Hq.
    repeat split. unfold dispatched in *. simpl. rewrite Hd. reflexivity.
Qed.

Lemma in_order_positions name stack l ts : forall k rs nm st p ty,
  In (Emit (taskStarted nm st p ty)) (in_order name stack l k ts rs) ->
  k <= p < k + length ts.
Proof.
  induction ts as [|t ts IH]; intros k [|r rs] nm st p ty Hin;
    simpl in Hin; try contradiction.
  destruct Hin as [[= _ _ <- _]|[[=]|[[=]|Hin]]].
  - simpl. lia.
  - apply IH in Hin. simpl. lia.
Qed.

(** ** A Queue with nothing pending

    Under the contract of the runner, a Queue all of whose dispatched
    promises have been signalled receives no signal any more: nothing is
    emitted, nothing is dispatched, the Queue stays as it is. *)
Lemma drive_halted es : forall w signalled w',
  (forall p, elem_of p (dispatched (trace w)) -> elem_of p signalled) ->
  drive w signalled es = Some w' ->
  trace w' = trace w /\ self w' = self w.
Proof.
  induction es as [|[h|p s arg] es IH]; intros w signalled w' Hall Hd;
    simpl in Hd.
  - injection Hd as <-. split; reflexivity.
  - apply IH in Hd; [exact Hd | exact Hall].
  - destruct (decide _) as [[Hin Hn]|_]; [|discriminate].
    exfalso. apply Hn, Hall, Hin.
Qed.

(** ** The runner of a Queue is bound on the dispatch path only *)

Lemma unbound_or_started_run runner w :
  unbound_or_started w -> unbound_or_started (enter (run runner) w).
Proof.
  intros H. destruct (enter_run runner w) as (_ & es & Hes & _ & _ & Hc).
  unfold unbound_or_started, appends in *. simpl in *.
  rewrite Hes, count_app.
  destruct Hc as [(Hs & _)|(_ & _ & _ & Hts & _)].
  - rewrite Hs. destruct H; [left; assumption | right; lia].
  - right. lia.
Qed.

Lemma unbound_or_started_next w :
  unbound_or_started w -> unbound_or_started (enter next w).
Proof.
  intros H.
  destruct (decide (S (_queuePosition (self w)) < length (_queue (self w))))
    as [Hlt|Hge].
  - rewrite (enter_ext next (run (_runner (self w))) w (advanced w))
      by (apply next_run, Hlt).
    apply unbound_or_started_run. exact H.
  - unfold enter. rewrite next_end by lia.
    unfold unbound_or_started in *. simpl. rewrite count_app.
    destruct H; [left; assumption | right; lia].
Qed.

Lemma unbound_or_started_feed1 w i :
  unbound_or_started w -> unbound_or_started (feed1 w i).
Proof.
  intros H. destruct i as [ty sp|runner| |p s arg|h]; simpl.
  - exact H.
  - apply unbound_or_started_run, H.
  - apply unbound_or_started_next, H.
  - destruct (decide _); [|exact H]. destruct s; simpl.
    + assert (E : enter (_onTaskComplete arg) w =
                  enter next (emitted (taskComplete (_name (self w))
                     (_queue (self w) !! _queuePosition (self w)) arg) w))
        by (apply enter_ext, _onTaskComplete_next).
      rewrite E. apply unbound_or_started_next.
      unfold unbound_or_started in *. simpl. rewrite count_app.
      destruct H; [left; assumption | right; lia].
    + rewrite enter_failed.
      unfold unbound_or_started in *. simpl. rewrite count_app.
      destruct H; [left; assumption | right; lia].
  - exact H.
Qed.

Lemma unbound_or_started_feed ins : forall w,
  unbound_or_started w -> unbound_or_started (feed w ins).
Proof.
  induction ins as [|i ins IH]; intros w H; [exact H|].
  apply IH, unbound_or_started_feed1, H.
Qed.

(** [drive] does not touch the tasks of the Queue. *)
Lemma feed1_same_tasks w i :
  (forall ty sp, i <> ITask ty sp) ->
  _queue (self (feed1 w i)) = _queue (self w).
Proof.
  intros Hi. destruct i as [ty sp|runner| |p s arg|h]; simpl.
  - destruct (Hi ty sp eq_refl).
  - apply (enter_run runner w).
  - destruct (decide (S (_queuePosition (self w)) < length (_queue (self w))))
      as [Hlt|Hge].
    + rewrite (enter_ext next (run (_runner (self w))) w (advanced w))
        by (apply next_run, Hlt).
      apply (enter_run _ (advanced w)).
    + unfold enter. rewrite next_end by lia. reflexivity.
  - destruct (decide _); [|reflexivity]. destruct s; simpl.
    + apply (enter_complete arg w).
    + reflexivity.
  - reflexivity.
Qed.

Lemma drive_same_tasks es : forall w signalled w',
  drive w signalled es = Some w' -> _queue (self w') = _queue (self w).
Proof.
  induction es as [|[h|p s arg] es IH]; intros w signalled w' Hd; simpl in Hd.
  - injection Hd as <-. reflexivity.
  - apply IH in Hd. exact Hd.
  - destruct (decide _); [|discriminate].
    apply IH in Hd. rewrite Hd.
    apply (feed1_same_tasks w (ISignal p s arg)). discriminate.
Qed.

(** * The scenarios of the specification *)

(** The queue "build" with the tasks files, concat and write, each of which
    succeeds. *)
Example scenario_build_succeeds :
  trace (feed (build [files; concat; write])
           [IRun (VRef 0);
            ISignal 0 complete (VString "R1");
            ISignal 1 complete (VString "R2");
            ISignal 2 complete (VString "R3")]) =
  [ Emit (taskStarted (VString "build") [] 0 (VString "files"));
    Exec 0 (VString "files") (VString "*.js") (Some 0);
    Emit (taskComplete (VString "build") (Some files) (VString "R1"));
    Emit (taskStarted (VString "build") [] 1 (VString "concat"));
    Exec 0 (VString "concat") VNull (Some 1);
    Emit (taskComplete (VString "build") (Some concat) (VString "R2"));
    Emit (taskStarted (VString "build") [] 2 (VString "write"));
    Exec 0 (VString "write") (VString "out.js") (Some 2);
    Emit (taskComplete (VString "build") (Some write) (VString "R3"));
    Emit (queueComplete (VString "build")) ].
Proof. reflexivity. Qed.

(** The same queue where concat fails with the error E. *)
Example scenario_build_fails_at_concat :
  trace (feed (build [files; concat; write])
           [IRun (VRef 0);
            ISignal 0 complete (VString "R1");
            ISignal 1 failed (VString "E")]) =
  [ Emit (taskStarted (VString "build") [] 0 (VString "files"));
    Exec 0 (VString "files") (VString "*.js") (Some 0);
    Emit (taskComplete (VString "build") (Some files) (VString "R1"));
    Emit (taskStarted (VString "build") [] 1 (VString "concat"));
    Exec 0 (VString "concat") VNull (Some 1);
    Emit (taskFailed (VString "build") (Some concat) (VString "E")) ].
Proof. reflexivity. Qed.

(** A fork that is reached after a task: one child for each key, in the
    order of the keys, and nothing emitted on the parent after the fork. *)
Example scenario_fork_of_two :
  let w := feed (build [files; fork])
             [IRun (VRef 0); ISignal 0 complete (VString "R1")] in
  trace w =
  [ Emit (taskStarted (VString "build") [] 0 (VString "files"));
    Exec 0 (VString "files") (VString "*.js") (Some 0);
    Emit (taskComplete (VString "build") (Some files) (VString "R1"));
    Call 3 (child VUndefined "debug")
      (Buildy_factory (VString "FILES") (VRef 6));
    Call 4 (child VUndefined "min")
      (Buildy_factory (VString "FILES") (VRef 6)) ] /\
  store w !! 6 = Some {| class_of := ClassArray; props := [("0", VRef 2)] |}.
Proof. split; reflexivity. Qed.

(** * The properties of the specification *)

(** ** C1: a run in which every task succeeds *)

(** C1 fails as stated.  A Queue whose second task is a fork, run once, with
    the one dispatched task signalled as a success: two tasks were appended,
    one [taskStarted] and no [queueComplete] is emitted.  A Queue with no
    task, run once: [run] throws and no [queueComplete] is emitted. *)
Lemma all_succeed_counterexample :
  (let w := feed (build [files; fork])
                 [IRun (VRef 0); ISignal 0 complete (VString "R1")] in
   length (_queue (self w)) = 2 /\
   dispatched (trace w) = [0] /\
   count is_taskStarted (trace w) = 1 /\
   count is_queueComplete (trace w) = 0) /\
  (let w := feed (build []) [IRun (VRef 0)] in
   trace w = [Escaped TypeError] /\
   count is_queueComplete (trace w) = 0).
Proof. vm_compute. repeat split. Qed.

(** C1, amended: for every Queue with N >= 1 tasks, none of them a fork, on
    which [run] is called once with a runner and every dispatched task is
    signalled as a success, the trace is: for each task in order
    [taskStarted], the call of [exec], [taskComplete]; then [queueComplete].
    So [taskStarted] and [taskComplete] are emitted N times each and
    [queueComplete] once; and after the success signals of the tasks before
    [j] the last thing that happened is the dispatch of task [j]: task
    [j + 1] is not dispatched before the signal of task [j] arrives. *)
Theorem all_succeed q h0 l hrs :
  _queuePosition q = 0 ->
  _queue q <> [] ->
  Forall (fun t => ~ is_fork t) (_queue q) ->
  length hrs = length (_queue q) ->
  has_exec h0 l ->
  Forall (fun hr => has_exec (fst hr) l) hrs ->
  let w := feed (world_of q h0) (IRun (VRef l) :: successes 0 hrs) in
  trace w =
    in_order (_name q) (_queueStack q) l 0 (_queue q) (map snd hrs) ++
    [Emit (queueComplete (_name q))] /\
  count is_taskStarted (trace w) = length (_queue q) /\
  count is_taskComplete (trace w) = length (_queue q) /\
  count is_queueComplete (trace w) = 1 /\
  forall j t, _queue q !! j = Some t ->
    trace (feed (world_of q h0) (IRun (VRef l) :: successes 0 (take j hrs))) =
    in_order (_name q) (_queueStack q) l 0
      (take j (_queue q)) (map snd (take j hrs)) ++ dispatch q l j t.
Proof.
  intros Hp Hne Hnf Hlen Hx0 Hxs.
  assert (Hprefix : forall j t, _queue q !! j = Some t ->
    feed (world_of q h0) (IRun (VRef l) :: successes 0 (take j hrs)) =
    awaiting q l (heap_after h0 (take j hrs)) j
      (in_order (_name q) (_queueStack q) l 0
         (take j (_queue q)) (map snd (take j hrs)) ++ dispatch q l j t)).
  { intros j t Ht. pose proof (lookup_lt_Some _ _ _ Ht) as Hj.
    apply succeed_prefix; try assumption; [lia|].
    apply Forall_take, Hnf. }
  assert (Htrace : trace (feed (world_of q h0) (IRun (VRef l) :: successes 0 hrs)) =
    in_order (_name q) (_queueStack q) l 0 (_queue q) (map snd hrs) ++
    [Emit (queueComplete (_name q))]).
  { destruct (length (_queue q)) as [|k] eqn:Hk.
    { destruct (_queue q); [contradiction | discriminate]. }
    destruct (lookup_lt_is_Some_2 (_queue q) k) as [t Ht]; [lia|].
    destruct (lookup_lt_is_Some_2 hrs k) as [[h r] Hhr]; [lia|].
    assert (Ets : _queue q = take k (_queue q) ++ [t]).
    { rewrite <- (take_S_r _ _ _ Ht). symmetry. apply take_ge. lia. }
    assert (Ehrs : hrs = take k hrs ++ [(h, r)]).
    { rewrite <- (take_S_r _ _ _ Hhr). symmetry. apply take_ge. lia. }
    assert (E1 : successes 0 hrs =
                 successes 0 (take k hrs) ++ [IExternal h; ISignal k complete r]).
    { transitivity (successes 0 (take k hrs ++ [(h, r)])); [f_equal; exact Ehrs|].
      rewrite successes_app, length_take, Nat.min_l by lia. reflexivity. }
    assert (E2 : in_order (_name q) (_queueStack q) l 0 (_queue q) (map snd hrs) =
                 in_order (_name q) (_queueStack q) l 0
                   (take k (_queue q)) (map snd (take k hrs)) ++
                 dispatch q l k t ++ [Emit (taskComplete (_name q) (Some t) r)]).
    { transitivity (in_order (_name q) (_queueStack q) l 0
                      (take k (_queue q) ++ [t]) (map snd (take k hrs) ++ [r])).
      - f_equal; [exact Ets|].
        transitivity (map snd (take k hrs ++ [(h, r)])); [f_equal; exact Ehrs|].
        apply map_app.
      - rewrite in_order_snoc by (rewrite length_map, !length_take; lia).
        rewrite length_take, Nat.min_l by lia. reflexivity. }
    rewrite E1, E2, app_comm_cons, feed_app, (Hprefix k t Ht).
    rewrite (success_last q l _ h k _ t r Ht Hk). simpl.
    rewrite <- !app_assoc. reflexivity. }
  cbv zeta. rewrite Htrace.
  destruct (in_order_counts (_name q) (_queueStack q) l (_queue q) 0 (map snd hrs))
    as (Hs & Hc & Hq & _); [rewrite length_map; lia|].
  rewrite !count_app, Hs, Hc, Hq.
  split; [reflexivity|]. split; [unfold count; simpl; lia|].
  split; [unfold count; simpl; lia|]. split; [reflexivity|].
  intros j t Ht. rewrite (Hprefix j t Ht). reflexivity.
Qed.

Lemma all_succeed_witness :
  let q := build_queue [files; concat; write] in
  let hrs := [(scene, VString "R1"); (scene, VString "R2"); (scene, VString "R3")] in
  let w := feed (world_of q scene) (IRun (VRef 0) :: successes 0 hrs) in
  trace w =
    in_order (_name q) (_queueStack q) 0 0 (_queue q) (map snd hrs) ++
    [Emit (queueComplete (_name q))] /\
  count is_taskStarted (trace w) = 3 /\
  count is_taskComplete (trace w) = 3 /\
  count is_queueComplete (trace w) = 1 /\
  forall j t, _queue q !! j = Some t ->
    trace (feed (world_of q scene) (IRun (VRef 0) :: successes 0 (take j hrs))) =
    in_order (_name q) (_queueStack q) 0 0
      (take j (_queue q)) (map snd (take j hrs)) ++ dispatch q 0 j t.
Proof.
  apply (all_succeed (build_queue [files; concat; write]) scene 0
           [(scene, VString "R1"); (scene, VString "R2"); (scene, VString "R3")]).
  - reflexivity.
  - discriminate.
  - repeat constructor; discriminate.
  - reflexivity.
  - reflexivity.
  - repeat constructor.
Defined.

(** ** C2: a task that fails *)

Lemma idle_feed1 w i :
  idle i ->
  _queuePosition (self (feed1 w i)) = _queuePosition (self w) /\
  exists es, trace (feed1 w i) = trace w ++ es /\
             Forall (fun e => is_taskFailed e = true) es.
Proof.
  intros Hi. destruct i as [ty sp|runner| |p s arg|h]; simpl in *;
    try contradiction.
  - split; [reflexivity|]. exists []. split; [symmetry; apply app_nil_r|constructor].
  - destruct s; [contradiction|].
    destruct (decide _).
    + rewrite enter_failed. simpl. split; [reflexivity|].
      eexists. split; [reflexivity|]. repeat constructor.
    + split; [reflexivity|]. exists []. split; [symmetry; apply app_nil_r|constructor].
  - split; [reflexivity|]. exists []. split; [symmetry; apply app_nil_r|constructor].
Qed.

Lemma idle_feed ins : forall w,
  Forall idle ins ->
  _queuePosition (self (feed w ins)) = _queuePosition (self w) /\
  exists es, trace (feed w ins) = trace w ++ es /\
             Forall (fun e => is_taskFailed e = true) es.
Proof.
  induction ins as [|i ins IH]; intros w Hi.
  - split; [reflexivity|]. exists []. split; [symmetry; apply app_nil_r|constructor].
  - apply Forall_cons in Hi as [Hi His].
    destruct (idle_feed1 w i Hi) as (Hp1 & es1 & Ht1 & Hf1).
    destruct (IH (feed1 w i) His) as (Hp2 & es2 & Ht2 & Hf2).
    change (feed w (i :: ins)) with (feed (feed1 w i) ins).
    split; [congruence|]. exists (es1 ++ es2).
    split; [rewrite Ht2, Ht1; symmetry; apply app_assoc|].
    apply Forall_app. split; assumption.
Qed.

Lemma failures_dispatch_nothing es :
  Forall (fun e => is_taskFailed e = true) es ->
  dispatched es = [] /\
  forall nm st p ty, ~ In (Emit (taskStarted nm st p ty)) es.
Proof.
  induction 1 as [|e es He _ [IHd IHs]]; [split; [reflexivity|intros ? ? ? ? []]|].
  destruct e as [[n s p ty|n t r|n t r|n]|l ty sp pr| |]; try discriminate.
  split; [exact IHd|].
  intros nm st p ty [Hin|Hin]; [discriminate | exact (IHs _ _ _ _ Hin)].
Qed.

(** C2 fails as stated.  The Queue keeps no record of a failure: after the
    task at position 0 has received a failure signal, a call of [next], and
    just as well a success signal on the same promise, emits [taskStarted]
    for the task at position 1. *)
Lemma failure_halts_counterexample :
  let w := feed (build [files; concat])
                [IRun (VRef 0); ISignal 0 failed (VString "E")] in
  count is_taskFailed (trace w) = 1 /\
  _queuePosition (self w) = 0 /\
  In (Emit (taskStarted (VString "build") [] 1 (VString "concat")))
     (trace (feed1 w INext)) /\
  In (Emit (taskStarted (VString "build") [] 1 (VString "concat")))
     (trace (feed1 w (ISignal 0 complete (VString "R1")))).
Proof. vm_compute. auto 10. Qed.

(** C2, amended: when the tasks before position [k] succeed and the task at
    [k] receives a failure signal, the Queue emits [taskFailed] for that
    task and nothing after it: the handler does not call [next], the cursor
    stays at [k] and nothing is dispatched.  The Queue stays so whatever
    failure signals, appended tasks and changes of the heap reach it
    afterwards: the cursor is still at [k], no promise has been handed over
    and no [taskStarted] for position [k + 1] has been emitted.  (It is set
    going again by a call of [next] or [run] or by a success signal.) *)
Theorem failure_halts q h0 l hrs k t h e :
  _queuePosition q = 0 ->
  _queue q !! k = Some t ->
  length hrs = k ->
  Forall (fun t => ~ is_fork t) (take (S k) (_queue q)) ->
  has_exec h0 l ->
  Forall (fun hr => has_exec (fst hr) l) hrs ->
  let w := feed (world_of q h0)
             (IRun (VRef l) :: successes 0 hrs ++
              [IExternal h; ISignal k failed e]) in
  trace w =
    in_order (_name q) (_queueStack q) l 0 (take k (_queue q)) (map snd hrs) ++
    dispatch q l k t ++ [Emit (taskFailed (_name q) (Some t) e)] /\
  _queuePosition (self w) = k /\
  forall ins, Forall idle ins ->
    let w' := feed w ins in
    _queuePosition (self w') = k /\
    dispatched (trace w') = dispatched (trace w) /\
    forall nm st ty, ~ In (Emit (taskStarted nm st (S k) ty)) (trace w').
Proof.
  intros Hp Ht Hlen Hnf Hx0 Hxs. cbv zeta.
  pose proof (lookup_lt_Some _ _ _ Ht) as Hk.
  assert (Hw : feed (world_of q h0)
                 (IRun (VRef l) :: successes 0 hrs ++
                  [IExternal h; ISignal k failed e]) =
               {| self := self (awaiting q l (heap_after h0 hrs) k []);
                  store := h; emitters := S k;
                  trace := in_order (_name q) (_queueStack q) l 0
                             (take k (_queue q)) (map snd hrs) ++
                           dispatch q l k t ++
                           [Emit (taskFailed (_name q) (Some t) e)] |}).
  { rewrite app_comm_cons, feed_app.
    rewrite <- (take_ge hrs k) by lia.
    rewrite (succeed_prefix q h0 l hrs Hp Hx0 Hxs k t) by (assumption || lia).
    rewrite (failure_stops q l _ h k _ t e Ht). simpl.
    rewrite <- !app_assoc. reflexivity. }
  rewrite Hw. set (w := {| self := _; store := h |}).
  split; [reflexivity|]. split; [reflexivity|].
  intros ins Hins.
  destruct (idle_feed ins w Hins) as (Hpos & es & Htr & Hes).
  destruct (failures_dispatch_nothing es Hes) as [Hd Hs].
  rewrite Hpos, Htr, dispatched_app, Hd, app_nil_r.
  split; [reflexivity|]. split; [reflexivity|].
  intros nm st ty Hin. simpl in Hin.
  apply in_app_or in Hin as [Hin|Hin]; [|exact (Hs _ _ _ _ Hin)].
  apply in_app_or in Hin as [Hin|Hin].
  - apply in_order_positions in Hin. rewrite length_take in Hin. lia.
  - simpl in Hin. destruct Hin as [[= _ _ Hk' _]|[[=]|[[=]|[]]]]. lia.
Qed.

Lemma failure_halts_witness :
  let q := build_queue [files; concat; write] in
  let w := feed (world_of q scene)
             (IRun (VRef 0) :: successes 0 [(scene, VString "R1")] ++
              [IExternal scene; ISignal 1 failed (VString "E")]) in
  trace w =
    in_order (_name q) (_queueStack q) 0 0 (take 1 (_queue q))
      (map snd [(scene, VString "R1")]) ++
    dispatch q 0 1 concat ++
    [Emit (taskFailed (_name q) (Some concat) (VString "E"))] /\
  _queuePosition (self w) = 1 /\
  forall ins, Forall idle ins ->
    let w' := feed w ins in
    _queuePosition (self w') = 1 /\
    dispatched (trace w') = dispatched (trace w) /\
    forall nm st ty, ~ In (Emit (taskStarted nm st 2 ty)) (trace w').
Proof.
  apply (failure_halts (build_queue [files; concat; write]) scene 0
           [(scene, VString "R1")] 1 concat scene (VString "E")).
  - reflexivity.
  - reflexivity.
  - reflexivity.
  - repeat constructor; discriminate.
  - reflexivity.
  - repeat constructor.
Defined.

(** ** C4: the range of the cursor *)

(** C4 fails as stated.  A Queue that was just made has its cursor at
    [tasks.length] (both are 0) and has not completed.  And after a Queue of
    one task has completed, a call of [next] leaves the cursor at 2, past
    [tasks.length]. *)
Lemma cursor_range_counterexample :
  (let w := build [] in
   _queuePosition (self w) = length (_queue (self w)) /\ ~ completed w) /\
  (let w := feed (build [files])
                 [IRun (VRef 0); ISignal 0 complete (VString "R1"); INext] in
   _queuePosition (self w) = 2 /\ length (_queue (self w)) = 1).
Proof.
  split.
  - split; [reflexivity|]. unfold completed. vm_compute. lia.
  - vm_compute. split; reflexivity.
Qed.

(** C4, amended: in a run -- [run] called once on a Queue whose cursor is at
    0, then signals under the contract of the runner, the tasks left as they
    are -- the cursor is always in [0, tasks.length]; when the Queue has
    completed the cursor is at [tasks.length]; and when the cursor is at
    [tasks.length] and the Queue has a task, it has completed. *)
Theorem cursor_range q h runner es w :
  _queuePosition q = 0 ->
  drive (feed1 (world_of q h) (IRun runner)) [] es = Some w ->
  _queue (self w) = _queue q /\
  _queuePosition (self w) <= length (_queue q) /\
  (completed w -> _queuePosition (self w) = length (_queue q)) /\
  (_queuePosition (self w) = length (_queue q) -> _queue q <> [] ->
   completed w).
Proof.
  intros Hp Hd.
  assert (Hq : _queue (self w) = _queue q).
  { rewrite (drive_same_tasks _ _ _ _ Hd).
    apply (feed1_same_tasks (world_of q h) (IRun runner)). discriminate. }
  destruct (drive_orderly es _ [] w (orderly_start q h runner Hp) Hd)
    as [signalled [Hr _ Hc He _ _ _]].
  rewrite Hq in *. repeat split; try assumption.
  intros Hend Hne. apply He; [exact Hend|].
  destruct (_queue q); [contradiction | simpl; lia].
Qed.

Lemma cursor_range_witness :
  let q := build_queue [files; concat] in
  let w := feed (world_of q scene)
             [IRun (VRef 0); ISignal 0 complete (VString "R1");
              IExternal scene; ISignal 1 complete (VString "R2")] in
  _queue (self w) = _queue q /\
  _queuePosition (self w) <= length (_queue q) /\
  (completed w -> _queuePosition (self w) = length (_queue q)) /\
  (_queuePosition (self w) = length (_queue q) -> _queue q <> [] ->
   completed w).
Proof.
  apply (cursor_range (build_queue [files; concat]) scene (VRef 0)
           [Signal 0 complete (VString "R1"); Mutate scene;
            Signal 1 complete (VString "R2")]).
  - reflexivity.
  - reflexivity.
Defined.

(** ** C5: [next] at the end of the tasks *)

(** C5 fails as stated.  A Queue of one task has completed; a call of [next]
    then moves the cursor from 1 to 2 and emits [queueComplete] a second
    time. *)
Lemma next_at_end_counterexample :
  let w := feed (build [files])
                [IRun (VRef 0); ISignal 0 complete (VString "R1")] in
  let w' := feed1 w INext in
  _queuePosition (self w) = length (_queue (self w)) /\
  count is_queueComplete (trace w) = 1 /\
  _queuePosition (self w') = 2 /\
  count is_queueComplete (trace w') = 2.
Proof. vm_compute. repeat split. Qed.

(** C5, amended: a call of [next] when the cursor is at [tasks.length] (or
    past it) dispatches nothing; it moves the cursor one further and emits
    [queueComplete], once for each such call.  In a run -- [run] called once
    on a Queue whose cursor is at 0, then signals under the contract of the
    runner -- [queueComplete] is emitted at most once. *)
Theorem next_at_end w q h runner es w' :
  length (_queue (self w)) <= _queuePosition (self w) ->
  _queuePosition q = 0 ->
  drive (feed1 (world_of q h) (IRun runner)) [] es = Some w' ->
  next w =
    (Return tt,
     {| self := set_queuePosition (S (_queuePosition (self w))) (self w);
        store := store w; emitters := emitters w;
        trace := trace w ++ [Emit (queueComplete (_name (self w)))] |}) /\
  count is_queueComplete (trace w') <= 1.
Proof.
  intros Hle Hp Hd. split.
  - rewrite next_end by lia. reflexivity.
  - destruct (drive_orderly es _ [] w' (orderly_start q h runner Hp) Hd)
      as [signalled [_ Ho _ _ _ _ _]].
    exact Ho.
Qed.

Lemma next_at_end_witness :
  let w := feed (build [files])
                [IRun (VRef 0); ISignal 0 complete (VString "R1")] in
  let w' := feed (world_of (build_queue [files; concat]) scene)
              [IRun (VRef 0); ISignal 0 complete (VString "R1");
               IExternal scene; ISignal 1 complete (VString "R2")] in
  next w =
    (Return tt,
     {| self := set_queuePosition (S (_queuePosition (self w))) (self w);
        store := store w; emitters := emitters w;
        trace := trace w ++ [Emit (queueComplete (_name (self w)))] |}) /\
  count is_queueComplete (trace w') <= 1.
Proof.
  apply (next_at_end
           (feed (build [files])
              [IRun (VRef 0); ISignal 0 complete (VString "R1")])
           (build_queue [files; concat]) scene (VRef 0)
           [Signal 0 complete (VString "R1"); Mutate scene;
            Signal 1 complete (VString "R2")]).
  - vm_compute. lia.
  - reflexivity.
  - reflexivity.
Defined.

(** ** C6: what moves the cursor *)

(** C6 fails as stated.  While the first task of a Queue is in the hands of
    the runner, a call of the public [next] moves the cursor from 0 to 1:
    no success signal was received, no [taskComplete] was emitted. *)
Lemma cursor_moves_counterexample :
  let w := feed (build [files; concat]) [IRun (VRef 0)] in
  let w' := feed1 w INext in
  _queuePosition (self w) = 0 /\
  _queuePosition (self w') = 1 /\
  count is_taskComplete (trace w') = 0.
Proof. vm_compute. auto. Qed.

(** C6, amended: a success signal on a promise of the Queue moves the
    cursor by exactly one, whatever [run] does for the next task, and a
    failure signal leaves it.  The one other thing that moves the cursor is
    a call of [next] from outside, by exactly one as well; a call of [run],
    a call of [task], a signal on something that is not a promise of the
    Queue and whatever code outside does to the heap leave it. *)
Theorem cursor_moves w i :
  _queuePosition (self (feed1 w i)) =
  match i with
  | ISignal p complete _ =>
      if decide (p < emitters w)
      then S (_queuePosition (self w))
      else _queuePosition (self w)
  | INext => S (_queuePosition (self w))
  | _ => _queuePosition (self w)
  end.
Proof.
  destruct i as [ty sp|runner| |p s arg|h]; simpl.
  - reflexivity.
  - apply (enter_run runner w).
  - destruct (decide (S (_queuePosition (self w)) < length (_queue (self w))))
      as [Hlt|Hge].
    + rewrite (enter_ext next (run (_runner (self w))) w (advanced w))
        by (apply next_run, Hlt).
      apply (enter_run _ (advanced w)).
    + unfold enter. rewrite next_end by lia. reflexivity.
  - destruct s; destruct (decide _); try reflexivity.
    apply (enter_complete arg w).
  - reflexivity.
Qed.

(** ** C9: [run] with the cursor past the tasks *)

(** C9: when the cursor is not an index of the tasks (the Queue is empty or
    exhausted), [run] throws: reading [t.type] of the undefined task is a
    TypeError.  Nothing is emitted, nothing is dispatched and the Queue is
    left as it was. *)
Theorem run_past_the_end_throws runner w :
  length (_queue (self w)) <= _queuePosition (self w) ->
  run runner w = (Throw TypeError, w).
Proof. apply run_undefined. Qed.

Lemma run_past_the_end_throws_witness :
  run (VRef 0) (build []) = (Throw TypeError, build []).
Proof.
  apply (run_past_the_end_throws (VRef 0) (build [])).
  simpl. lia.
Defined.

(** ** C10: a fork before any dispatch *)

(** C10: take a Queue as [new Queue] made it and whatever was done to it
    since (tasks appended, [run] and [next] called, signals received).  If
    it never entered the dispatch path -- it never emitted [taskStarted] --
    and the task at the cursor is a fork, then [run] throws a TypeError,
    whatever runner it is given: [_runner] is still undefined, the argument
    of [run] is not bound on the fork path, and [_fork] reads
    [this._runner._state]. *)
Theorem fork_before_dispatch_throws name options h ins runner t :
  let w := feed (world_of (Queue_new name options) h) ins in
  count is_taskStarted (trace w) = 0 ->
  _queue (self w) !! _queuePosition (self w) = Some t ->
  is_fork t ->
  run runner w = (Throw TypeError, w).
Proof.
  intros w Hc Ht Hf.
  assert (Hu : unbound_or_started w).
  { apply unbound_or_started_feed. left. reflexivity. }
  destruct Hu as [Hu|Hs]; [|lia].
  rewrite (run_fork runner w t Ht Hf).
  unfold _fork, bind, get_self, get_property. rewrite Hu. reflexivity.
Qed.

Lemma fork_before_dispatch_throws_witness :
  let w := feed (world_of (Queue_new (VString "build") VUndefined) scene)
                [ITask (VString "fork") (VRef 5)] in
  run (VRef 0) w = (Throw TypeError, w).
Proof.
  apply (fork_before_dispatch_throws (VString "build") VUndefined scene
           [ITask (VString "fork") (VRef 5)] (VRef 0) fork).
  - reflexivity.
  - reflexivity.
  - reflexivity.
Defined.

(** ** C3: the ancestry of a child *)

(** C3 does not hold of the code.  The Queue "build", whose ancestry is
    empty, reaches its fork with its runner bound.  The claim gives each
    child the ancestry ["build"]; [eachFork] pushes [this._name] where [this]
    is not the Queue, and each child gets the ancestry [undefined]. *)
Theorem child_ancestry_is_undefined :
  let w := feed (build [files; fork])
                [IRun (VRef 0); ISignal 0 complete (VString "R1")] in
  _queueStack (self w) ++ [_name (self w)] = [VString "build"] /\
  map _name (children (trace w)) = [VString "debug"; VString "min"] /\
  map _queueStack (children (trace w)) = [[VUndefined]; [VUndefined]].
Proof. vm_compute. repeat split. Qed.

(** ** C7: a fork creates one child for each entry *)

(** C7 does not hold of the code.  The Queue "build" has the fork
    [{debug: fn1, min: fn2}] as its only task and is run with a runner.  The
    claim has two children made and two continuations called; [run] throws a
    TypeError before any child is made, because the runner is bound on the
    dispatch path only. *)
Theorem lone_fork_throws :
  let w := feed (build [fork]) [IRun (VRef 0)] in
  trace w = [Escaped TypeError] /\
  children (trace w) = [] /\
  _runner (self w) = VUndefined.
Proof. vm_compute. repeat split. Qed.

(** ** C8: the runner state of the children *)

(** C8 fails as stated.  The state of the runner is an array that holds an
    array of file names.  At the fork both children are given the same new
    array (6), so the two siblings share it; and that array holds the very
    array of file names (2) that the state of the parent (1) holds, so each
    child shares it with the parent: the copy is one level deep. *)
Lemma fork_snapshot_counterexample :
  let w := feed (build [files; fork])
                [IRun (VRef 0); ISignal 0 complete (VString "R1")] in
  fst (get_property (_runner (self w)) "_state" w) = Return (VRef 1) /\
  map state_of (workers (trace w)) = [VRef 6; VRef 6] /\
  shares (store w) (VRef 6) (VRef 6) /\
  shares (store w) (VRef 6) (VRef 1).
Proof.
  split; [reflexivity|]. split; [reflexivity|]. split.
  - exists 6. split; constructor.
  - exists 2. split.
    + eapply (reaches_prop _ 6 _ "0" (VRef 2)); [reflexivity | left; reflexivity | constructor].
    + eapply (reaches_prop _ 1 _ "0" (VRef 2)); [reflexivity | left; reflexivity | constructor].
Qed.

(** C8, amended: at a fork of a Queue whose runner is bound, the snapshot of
    the runner state is made once, before any child: a state that is a
    primitive is taken as it is; a state that is an array is copied by
    [slice] into one new array with the same elements, an object other than
    the array of the parent.  Every child worker is made from that one
    snapshot and the type tag of the runner. *)
Theorem fork_snapshot w r ro f entries :
  _runner (self w) = VRef r ->
  store w !! r = Some ro ->
  store w !! f = Some (forkspec_of entries) ->
  NoDup (map fst entries) ->
  Forall (fun kl => is_function (store w) (snd kl)) entries ->
  let state := lookup_prop "_state" (props ro) in
  let tag := lookup_prop "_type" (props ro) in
  let w' := snd (_fork (VRef f) w) in
  (instanceof_Object state = false ->
   fst (_fork (VRef f) w) = Return tt /\
   store w' = store w /\
   workers (trace w') =
     workers (trace w) ++ repeat (Buildy_factory tag state) (length entries))
  /\
  (forall a ao,
   state = VRef a -> store w !! a = Some ao -> class_of ao = ClassArray ->
   fst (_fork (VRef f) w) = Return tt /\
   store w' = store w ++ [{| class_of := ClassArray; props := props ao |}] /\
   length (store w) <> a /\
   workers (trace w') =
     workers (trace w) ++
     repeat (Buildy_factory tag (VRef (length (store w)))) (length entries)).
Proof.
  intros Hr Hro Hf Hnd Hfn. cbv zeta. split.
  - intros Hprim.
    rewrite (_fork_primitive w r ro f entries) by assumption. simpl.
    split; [reflexivity|]. split; [reflexivity|].
    unfold workers at 1. rewrite omap_app. fold (workers (trace w)).
    f_equal. apply workers_continuations.
  - intros a ao Hst Ha Hcl.
    rewrite (_fork_array w r ro f entries a ao) by assumption. simpl.
    split; [reflexivity|]. split; [reflexivity|].
    split; [apply lookup_lt_Some in Ha; lia|].
    unfold workers at 1. rewrite omap_app. fold (workers (trace w)).
    f_equal. apply workers_continuations.
Qed.

Lemma fork_snapshot_witness :
  let w := feed (build [files; fork]) [IRun (VRef 0)] in
  let w' := snd (_fork (VRef 5) w) in
  fst (_fork (VRef 5) w) = Return tt /\
  store w' = store w ++ [{| class_of := ClassArray; props := [("0", VRef 2)] |}] /\
  length (store w) <> 1 /\
  workers (trace w') =
    workers (trace w) ++
    repeat (Buildy_factory (VString "FILES") (VRef (length (store w)))) 2.
Proof.
  assert (Hnd : NoDup (map fst [("debug", 3); ("min", 4)]))
    by (apply (bool_decide_unpack _); reflexivity).
  assert (Hfn : Forall (fun kl : string * loc =>
                  is_function (store (feed (build [files; fork]) [IRun (VRef 0)]))
                              (snd kl))
                  [("debug", 3); ("min", 4)])
    by (repeat constructor).
  apply (proj2
           (fork_snapshot (feed (build [files; fork]) [IRun (VRef 0)]) 0
              {| class_of := ClassBuildy;
                 props := [("_state", VRef 1); ("_type", VString "FILES")] |}
              5 [("debug", 3); ("min", 4)]
              eq_refl eq_refl eq_refl Hnd Hfn)
           1 {| class_of := ClassArray; props := [("0", VRef 2)] |}).
  - reflexivity.
  - reflexivity.
  - reflexivity.
Defined.

(** * Further properties of the code *)

(** ** Building a Queue *)

Lemma feed_tasks ts : forall q h,
  feed (world_of q h) (map (fun t => ITask (type t) (spec t)) ts) =
  world_of (set_queue (_queue q ++ ts) q) h.
Proof.
  induction ts as [|t ts IH]; intros q h; simpl.
  - rewrite app_nil_r. destruct q; reflexivity.
  - change (enter (task (type t) (spec t)) (world_of q h))
      with (world_of (set_queue (_queue q ++ [{| type := type t; spec := spec t |}]) q) h).
    change (fold_left feed1 ?ins ?w) with (feed w ins).
    rewrite IH. simpl. rewrite <- app_assoc. destruct t. reflexivity.
Qed.

(** X1: [new Queue(name, options)] followed by any chain of [task] calls
    never throws and gives the Queue whose tasks are the appended ones in
    the order of the calls, with the cursor at 0, an empty ancestry, the
    options as given and no runner and no promise; nothing is emitted. *)
Theorem task_chain name options ts h :
  fresh name options ts h =
  {| self := {| _name := name; _queue := ts; _queuePosition := 0;
                _queueStack := []; _options := options;
                _runner := VUndefined; _promise := None |};
     store := h; emitters := 0; trace := [] |}.
Proof. unfold fresh. rewrite feed_tasks. reflexivity. Qed.

(** ** Signals and tasks that come at another time *)

(** X2: [task] is not closed by [run].  When the last task of a Queue is in
    the hands of the runner, a success signal emits [taskComplete] and
    [queueComplete]; when a task that is not a fork is appended first, the
    same signal emits [taskComplete] and no [queueComplete]: the appended
    task is started and handed to the runner on a new promise. *)
Theorem late_task_is_run w l t ty sp h' p r :
  _runner (self w) = VRef l ->
  _queue (self w) !! _queuePosition (self w) = Some t ->
  length (_queue (self w)) = S (_queuePosition (self w)) ->
  ty <> VString "fork" ->
  has_exec h' l ->
  p < emitters w ->
  trace (feed w [IExternal h'; ISignal p complete r]) =
    trace w ++
    [Emit (taskComplete (_name (self w)) (Some t) r);
     Emit (queueComplete (_name (self w)))] /\
  trace (feed w [ITask ty sp; IExternal h'; ISignal p complete r]) =
    trace w ++
    [Emit (taskComplete (_name (self w)) (Some t) r);
     Emit (taskStarted (_name (self w)) (_queueStack (self w))
             (S (_queuePosition (self w))) ty);
     Exec l ty sp (Some (emitters w))].
Proof.
  intros Hr Ht Hlen Hty Hx Hp. split.
  - simpl. destruct (decide (p < emitters w)) as [_|Hn]; [|contradiction].
    unfold enter. rewrite _onTaskComplete_next. simpl. rewrite Ht.
    rewrite next_end by (simpl; lia). simpl.
    rewrite <- app_assoc. reflexivity.
  - simpl. destruct (decide (p < emitters w)) as [_|Hn]; [|contradiction].
    unfold enter. rewrite _onTaskComplete_next. simpl.
    rewrite (lookup_app_l_Some _ _ _ _ Ht).
    rewrite next_run by (simpl; rewrite length_app; simpl; lia).
    simpl. rewrite Hr.
    rewrite (run_dispatch l _ {| type := ty; spec := sp |}); simpl.
    + rewrite <- app_assoc. reflexivity.
    + rewrite <- Hlen. apply list_lookup_middle. reflexivity.
    + exact Hty.
    + exact Hx.
Qed.

Lemma late_task_is_run_witness :
  let w := feed (build [files]) [IRun (VRef 0)] in
  trace (feed w [IExternal scene; ISignal 0 complete (VString "R1")]) =
    trace w ++
    [Emit (taskComplete (_name (self w)) (Some files) (VString "R1"));
     Emit (queueComplete (_name (self w)))] /\
  trace (feed w [ITask (VString "write") (VString "out.js");
                 IExternal scene; ISignal 0 complete (VString "R1")]) =
    trace w ++
    [Emit (taskComplete (_name (self w)) (Some files) (VString "R1"));
     Emit (taskStarted (_name (self w)) (_queueStack (self w))
             (S (_queuePosition (self w))) (VString "write"));
     Exec 0 (VString "write") (VString "out.js") (Some (emitters w))].
Proof.
  apply (late_task_is_run (feed (build [files]) [IRun (VRef 0)]) 0 files
           (VString "write") (VString "out.js") scene 0 (VString "R1")).
  - reflexivity.
  - reflexivity.
  - reflexivity.
  - discriminate.
  - reflexivity.
  - simpl. lia.
Defined.

(** X3: the Queue keeps no record of a failure.  After a failure signal
    the listeners of the promise are still in place and the cursor is
    where it was, so a success signal that follows it (from a runner that
    signals twice) is handled as if the task had succeeded: [taskComplete]
    is emitted for the task that failed and the next task is started. *)
Theorem failure_then_success_resumes w l t t' p e r :
  _runner (self w) = VRef l ->
  has_exec (store w) l ->
  _queue (self w) !! _queuePosition (self w) = Some t ->
  _queue (self w) !! S (_queuePosition (self w)) = Some t' ->
  ~ is_fork t' ->
  p < emitters w ->
  let w' := feed w [ISignal p failed e; ISignal p complete r] in
  trace w' =
    trace w ++
    [Emit (taskFailed (_name (self w)) (Some t) e);
     Emit (taskComplete (_name (self w)) (Some t) r);
     Emit (taskStarted (_name (self w)) (_queueStack (self w))
             (S (_queuePosition (self w))) (type t'));
     Exec l (type t') (spec t') (Some (emitters w))] /\
  _queuePosition (self w') = S (_queuePosition (self w)).
Proof.
  intros Hr Hx Ht Ht' Hf Hp. simpl.
  destruct (decide (p < emitters w)) as [_|Hn]; [|contradiction].
  rewrite enter_failed. simpl.
  destruct (decide (p < emitters w)) as [_|Hn]; [|contradiction].
  unfold enter. rewrite _onTaskComplete_next. simpl. rewrite Ht.
  rewrite next_run by (simpl; apply (lookup_lt_Some _ _ _ Ht')).
  simpl. rewrite Hr.
  rewrite (run_dispatch l _ t'); simpl; try assumption.
  rewrite <- !app_assoc. split; reflexivity.
Qed.

Lemma failure_then_success_resumes_witness :
  let w := feed (build [files; concat]) [IRun (VRef 0)] in
  let w' := feed w [ISignal 0 failed (VString "E");
                    ISignal 0 complete (VString "R1")] in
  trace w' =
    trace w ++
    [Emit (taskFailed (_name (self w)) (Some files) (VString "E"));
     Emit (taskComplete (_name (self w)) (Some files) (VString "R1"));
     Emit (taskStarted (_name (self w)) (_queueStack (self w))
             (S (_queuePosition (self w))) (type concat));
     Exec 0 (type concat) (spec concat) (Some (emitters w))] /\
  _queuePosition (self w') = S (_queuePosition (self w)).
Proof.
  apply (failure_then_success_resumes
           (feed (build [files; concat]) [IRun (VRef 0)]) 0 files concat 0
           (VString "E") (VString "R1")).
  - reflexivity.
  - reflexivity.
  - reflexivity.
  - reflexivity.
  - discriminate.
  - simpl. lia.
Defined.

(** X4: a signal that reaches a Queue whose cursor is past its tasks does
    not throw.  A success signal emits [taskComplete] with an undefined
    task and then [queueComplete], and moves the cursor one further; a
    failure signal emits [taskFailed] with an undefined task and leaves the
    Queue as it is. *)
Theorem signal_past_the_end w p arg :
  length (_queue (self w)) <= _queuePosition (self w) ->
  p < emitters w ->
  feed1 w (ISignal p complete arg) =
    {| self := set_queuePosition (S (_queuePosition (self w))) (self w);
       store := store w; emitters := emitters w;
       trace := trace w ++
         [Emit (taskComplete (_name (self w)) None arg);
          Emit (queueComplete (_name (self w)))] |} /\
  feed1 w (ISignal p failed arg) =
    {| self := self w; store := store w; emitters := emitters w;
       trace := trace w ++ [Emit (taskFailed (_name (self w)) None arg)] |}.
Proof.
  intros Hle Hp. simpl.
  destruct (decide (p < emitters w)) as [_|Hn]; [|contradiction].
  rewrite enter_failed. unfold emitted.
  rewrite (lookup_ge_None_2 _ _ Hle). split; [|reflexivity].
  unfold enter. rewrite _onTaskComplete_next.
  rewrite (lookup_ge_None_2 _ _ Hle).
  rewrite next_end by (simpl; lia).
  unfold emitted, advanced. simpl. rewrite <- app_assoc. reflexivity.
Qed.

Lemma signal_past_the_end_witness :
  let w := feed (build [files])
                [IRun (VRef 0); ISignal 0 complete (VString "R1")] in
  feed1 w (ISignal 0 complete (VString "R1")) =
    {| self := set_queuePosition (S (_queuePosition (self w))) (self w);
       store := store w; emitters := emitters w;
       trace := trace w ++
         [Emit (taskComplete (_name (self w)) None (VString "R1"));
          Emit (queueComplete (_name (self w)))] |} /\
  feed1 w (ISignal 0 failed (VString "R1")) =
    {| self := self w; store := store w; emitters := emitters w;
       trace := trace w ++
         [Emit (taskFailed (_name (self w)) None (VString "R1"))] |}.
Proof.
  apply (signal_past_the_end
           (feed (build [files])
              [IRun (VRef 0); ISignal 0 complete (VString "R1")])
           0 (VString "R1")).
  - simpl. lia.
  - simpl. lia.
Defined.

(** ** [run] with something that is not a runner *)

(** X5: [run] emits [taskStarted] before it calls [exec].  When the task at
    the cursor is not a fork and the argument of [run] has no [exec] that
    can be called, neither of its own nor inherited (undefined, a
    primitive, a plain object without one), [run] throws a
    TypeError only after it has made the promise, bound the argument as the
    runner of the Queue and emitted [taskStarted]; nothing is dispatched
    and the cursor stays. *)
Theorem run_without_exec runner w t :
  _queue (self w) !! _queuePosition (self w) = Some t ->
  ~ is_fork t ->
  (forall l, runner = VRef l -> ~ has_exec (store w) l) ->
  run runner w =
  (Throw TypeError,
   {| self := set_runner runner (set_promise (Some (emitters w)) (self w));
      store := store w;
      emitters := S (emitters w);
      trace := trace w ++
        [Emit (taskStarted (_name (self w)) (_queueStack (self w))
                           (_queuePosition (self w)) (type t))] |}).
Proof.
  intros Ht Hf Hno. rewrite (run_task _ _ _ Ht Hf).
  unfold exec, started. simpl.
  destruct runner as [| | | | |l]; try reflexivity.
  specialize (Hno l eq_refl).
  destruct (decide _) as [Hc|_]; [contradiction | reflexivity].
Qed.

(** A plain object that carries an [exec] of its own is a runner; one that
    carries none is not. *)
Example plain_object_runner :
  has_exec plain_scene 0 /\ ~ has_exec plain_scene 2 /\
  trace (feed (world_of (build_queue [files]) plain_scene) [IRun (VRef 0)]) =
  [ Emit (taskStarted (VString "build") [] 0 (VString "files"));
    Exec 0 (VString "files") (VString "*.js") (Some 0) ] /\
  trace (feed (world_of (build_queue [files]) plain_scene) [IRun (VRef 2)]) =
  [ Emit (taskStarted (VString "build") [] 0 (VString "files"));
    Escaped TypeError ].
Proof.
  split; [reflexivity|]. split; [|split; reflexivity].
  intros H. discriminate H.
Qed.

Lemma run_without_exec_witness :
  run VUndefined (build [files]) =
  (Throw TypeError,
   {| self := set_runner VUndefined
                (set_promise (Some (emitters (build [files])))
                   (self (build [files])));
      store := store (build [files]);
      emitters := S (emitters (build [files]));
      trace := trace (build [files]) ++
        [Emit (taskStarted (_name (self (build [files])))
                 (_queueStack (self (build [files])))
                 (_queuePosition (self (build [files]))) (type files))] |}).
Proof.
  apply (run_without_exec VUndefined (build [files]) files).
  - reflexivity.
  - discriminate.
  - discriminate.
Defined.

(** X6: [run] does not remember that a task is in progress.  Called twice
    in a row on a task that is not a fork, it emits [taskStarted] twice and
    hands the same task to the runner twice, each time on a promise of its
    own; the cursor stays, and the Queue keeps the second promise. *)
Theorem run_twice_dispatches_twice w l t :
  _queue (self w) !! _queuePosition (self w) = Some t ->
  ~ is_fork t ->
  has_exec (store w) l ->
  let w' := feed w [IRun (VRef l); IRun (VRef l)] in
  trace w' =
    trace w ++
    [Emit (taskStarted (_name (self w)) (_queueStack (self w))
             (_queuePosition (self w)) (type t));
     Exec l (type t) (spec t) (Some (emitters w));
     Emit (taskStarted (_name (self w)) (_queueStack (self w))
             (_queuePosition (self w)) (type t));
     Exec l (type t) (spec t) (Some (S (emitters w)))] /\
  _queuePosition (self w') = _queuePosition (self w) /\
  _promise (self w') = Some (S (emitters w)).
Proof.
  intros Ht Hf Hx. simpl. unfold enter.
  rewrite (run_dispatch l w t Ht Hf Hx).
  rewrite (run_dispatch l _ t); simpl; try assumption.
  rewrite <- app_assoc. repeat split.
Qed.

Lemma run_twice_dispatches_twice_witness :
  let w := build [files] in
  let w' := feed w [IRun (VRef 0); IRun (VRef 0)] in
  trace w' =
    trace w ++
    [Emit (taskStarted (_name (self w)) (_queueStack (self w))
             (_queuePosition (self w)) (type files));
     Exec 0 (type files) (spec files) (Some (emitters w));
     Emit (taskStarted (_name (self w)) (_queueStack (self w))
             (_queuePosition (self w)) (type files));
     Exec 0 (type files) (spec files) (Some (S (emitters w)))] /\
  _queuePosition (self w') = _queuePosition (self w) /\
  _promise (self w') = Some (S (emitters w)).
Proof.
  apply (run_twice_dispatches_twice (build [files]) 0 files).
  - reflexivity.
  - discriminate.
  - reflexivity.
Defined.

(** ** The fork, child by child *)

(** X7: a fork that is reached with a runner bound whose state is a
    primitive or an array.  [run] returns, whatever its argument; it calls
    the continuation of each entry of the fork specification once, in the
    order of the keys, on a new Queue named by the key that has the options
    of the parent, no task, the cursor at 0 and no runner, with one and the
    same snapshot for all; nothing is emitted, nothing is handed to [exec],
    no promise is made and the parent Queue is left as it was. *)
Theorem run_fork_children runner w t f r ro entries :
  _queue (self w) !! _queuePosition (self w) = Some t ->
  type t = VString "fork" ->
  spec t = VRef f ->
  _runner (self w) = VRef r ->
  store w !! r = Some ro ->
  store w !! f = Some (forkspec_of entries) ->
  NoDup (map fst entries) ->
  Forall (fun kl => is_function (store w) (snd kl)) entries ->
  (instanceof_Object (lookup_prop "_state" (props ro)) = false \/
   exists a ao, lookup_prop "_state" (props ro) = VRef a /\
                store w !! a = Some ao /\ class_of ao = ClassArray) ->
  let w' := snd (run runner w) in
  fst (run runner w) = Return tt /\
  self w' = self w /\
  emitters w' = emitters w /\
  exists snapshot,
    trace w' =
    trace w ++
    map (fun kl => Call (snd kl)
                     {| _name := VString (fst kl); _queue := [];
                        _queuePosition := 0; _queueStack := [global__name];
                        _options := _options (self w);
                        _runner := VUndefined; _promise := None |}
                     (Buildy_factory (lookup_prop "_type" (props ro)) snapshot))
        entries.
Proof.
  intros Ht Hty Hsp Hr Hro Hf Hnd Hfn Hstate. cbv zeta.
  rewrite (run_fork runner w t Ht Hty), Hsp.
  destruct Hstate as [Hprim|(a & ao & Hst & Ha & Hcl)].
  - rewrite (_fork_primitive w r ro f entries) by assumption. simpl.
    repeat split. eexists. reflexivity.
  - rewrite (_fork_array w r ro f entries a ao) by assumption. simpl.
    repeat split. eexists. reflexivity.
Qed.

Lemma run_fork_children_witness :
  let w := bound fork 0 scene in
  let w' := snd (run VUndefined w) in
  fst (run VUndefined w) = Return tt /\
  self w' = self w /\
  emitters w' = emitters w /\
  exists snapshot,
    trace w' =
    trace w ++
    map (fun kl => Call (snd kl)
                     {| _name := VString (fst kl); _queue := [];
                        _queuePosition := 0; _queueStack := [global__name];
                        _options := _options (self w);
                        _runner := VUndefined; _promise := None |}
                     (Buildy_factory (VString "FILES") snapshot))
        [("debug", 3); ("min", 4)].
Proof.
  assert (Hnd : NoDup (map fst [("debug", 3); ("min", 4)]))
    by (apply (bool_decide_unpack _); reflexivity).
  assert (Hfn : Forall (fun kl : string * loc =>
                  is_function (store (bound fork 0 scene)) (snd kl))
                  [("debug", 3); ("min", 4)])
    by (repeat constructor).
  apply (run_fork_children VUndefined (bound fork 0 scene) fork 5 0
           {| class_of := ClassBuildy;
              props := [("_state", VRef 1); ("_type", VString "FILES")] |}
           [("debug", 3); ("min", 4)]
           eq_refl eq_refl eq_refl eq_refl eq_refl eq_refl Hnd Hfn).
  right. exists 1, {| class_of := ClassArray; props := [("0", VRef 2)] |}.
  repeat split.
Defined.

(** X8: a fork that is reached with a runner whose state is a plain object
    or a function.  The state is an instance of Object, so [_fork] calls its
    [slice]; neither inherits one.  Unless the state carries a [slice] of its
    own that is a function, which is then called, [run] throws a TypeError
    before any child is made; either way the world is as it was when the
    method is left. *)
Theorem fork_of_object_state runner w t r ro a ao :
  _queue (self w) !! _queuePosition (self w) = Some t ->
  is_fork t ->
  _runner (self w) = VRef r ->
  store w !! r = Some ro ->
  lookup_prop "_state" (props ro) = VRef a ->
  store w !! a = Some ao ->
  class_of ao = ClassObject \/ class_of ao = ClassFunction ->
  run runner w =
  (Throw match own_prop "slice" (props ao) with
         | Some f =>
             if decide (callable (store w) f)
             then Outside a "slice" else TypeError
         | None => TypeError
         end, w).
Proof.
  intros Ht Hf Hr Hro Hst Ha Hcl.
  rewrite (run_fork runner w t Ht Hf).
  unfold _fork, bind, get_self, get_property, slice. simpl.
  rewrite Hr, Hro, Hst. simpl. rewrite Ha.
  destruct (decide (class_of ao = ClassArray)) as [Hy|_];
    [destruct Hcl; congruence|].
  destruct (own_prop "slice" (props ao)); [|reflexivity].
  destruct (decide _); reflexivity.
Qed.

Lemma fork_of_object_state_witness :
  run (VRef 0) (bound {| type := VString "fork"; spec := VRef 3 |} 0 odd_scene) =
  (Throw TypeError,
   bound {| type := VString "fork"; spec := VRef 3 |} 0 odd_scene).
Proof.
  apply (fork_of_object_state (VRef 0)
           (bound {| type := VString "fork"; spec := VRef 3 |} 0 odd_scene)
           {| type := VString "fork"; spec := VRef 3 |} 0
           {| class_of := ClassBuildy;
              props := [("_state", VRef 1); ("_type", VString "OBJECT")] |}
           1 {| class_of := ClassObject; props := [("code", VString "x")] |}).
  - reflexivity.
  - reflexivity.
  - reflexivity.
  - reflexivity.
  - reflexivity.
  - reflexivity.
  - left. reflexivity.
Defined.





Lemma reaches_flat h l o l' :
  h !! l = Some o -> flat o -> reaches h (VRef l) l' -> l' = l.
Proof.
  intros Hl Hflat Hr. inversion Hr as [|l0 o0 k v l1 Hl0 Hin Hv]; subst;
    [reflexivity|].
  rewrite Hl in Hl0. injection Hl0 as <-.
  unfold flat in Hflat. rewrite List.Forall_forall in Hflat.
  specialize (Hflat (k, v) Hin). simpl in Hflat.
  inversion Hv; subst; discriminate.
Qed.

(** X10: a fork of a runner whose state is an array of primitives (file
    names, strings) gives the children a state that shares no object with
    the state of the parent: the new array is another object and there is
    nothing behind its elements. *)
Theorem flat_snapshot_is_independent w r ro f entries a ao :
  _runner (self w) = VRef r ->
  store w !! r = Some ro ->
  store w !! f = Some (forkspec_of entries) ->
  NoDup (map fst entries) ->
  Forall (fun kl => is_function (store w) (snd kl)) entries ->
  lookup_prop "_state" (props ro) = VRef a ->
  store w !! a = Some ao ->
  class_of ao = ClassArray ->
  flat ao ->
  let w' := snd (_fork (VRef f) w) in
  Forall (fun c => ~ shares (store w') (state_of c) (VRef a))
    (drop (length (workers (trace w))) (workers (trace w'))) /\
  length (workers (trace w')) = length (workers (trace w)) + length entries.
Proof.
  intros Hr Hro Hf Hnd Hfn Hst Ha Hcl Hflat. cbv zeta.
  rewrite (_fork_array w r ro f entries a ao) by assumption. simpl.
  assert (Hw : workers (trace w ++
                 map (continuation (_options (self w))
                        (lookup_prop "_type" (props ro))
                        (VRef (length (store w)))) entries) =
               workers (trace w) ++
               repeat (Buildy_factory (lookup_prop "_type" (props ro))
                         (VRef (length (store w)))) (length entries)).
  { unfold workers at 1. rewrite omap_app. f_equal.
    apply workers_continuations. }
  rewrite Hw, drop_app_length, length_app, repeat_length.
  split; [|reflexivity].
  apply Forall_forall. intros c Hc.
  apply list_elem_of_In, repeat_spec in Hc. subst c. simpl.
  intros (l & Hn & Hp).
  apply (reaches_flat _ _ {| class_of := ClassArray; props := props ao |})
    in Hn; [| apply list_lookup_middle; reflexivity | exact Hflat].
  apply (reaches_flat _ _ ao) in Hp;
    [| apply lookup_app_l_Some, Ha | exact Hflat].
  apply lookup_lt_Some in Ha. lia.
Qed.

Lemma flat_snapshot_is_independent_witness :
  let w := bound {| type := VString "fork"; spec := VRef 3 |} 0 flat_scene in
  let w' := snd (_fork (VRef 3) w) in
  Forall (fun c => ~ shares (store w') (state_of c) (VRef 1))
    (drop (length (workers (trace w))) (workers (trace w'))) /\
  length (workers (trace w')) = length (workers (trace w)) + 1.
Proof.
  assert (Hnd : NoDup (map fst [("debug", 2)]))
    by (apply (bool_decide_unpack _); reflexivity).
  apply (flat_snapshot_is_independent
           (bound {| type := VString "fork"; spec := VRef 3 |} 0 flat_scene) 0
           {| class_of := ClassBuildy;
              props := [("_state", VRef 1); ("_type", VString "FILES")] |}
           3 [("debug", 2)] 1
           {| class_of := ClassArray;
              props := [("0", VString "a.js"); ("1", VString "b.js")] |}).
  - reflexivity.
  - reflexivity.
  - reflexivity.
  - exact Hnd.
  - repeat constructor.
  - reflexivity.
  - reflexivity.
  - reflexivity.
  - repeat constructor.
Defined.

(** ** What every method keeps *)

Lemma sound_later w1 w2 w3 e :
  sound w1 w2 e ->
  _name (self w3) = _name (self w2) ->
  _queueStack (self w3) = _queueStack (self w2) ->
  (exists ts, _queue (self w3) = _queue (self w2) ++ ts) ->
  _queuePosition (self w2) <= _queuePosition (self w3) ->
  emitters w2 <= emitters w3 ->
  sound w1 w3 e.
Proof.
  intros H Hn Hs [ts Hq] Hp He.
  destruct e as [[n s p ty|n t r|n t r|n]|l ty sp pr| |]; simpl in *;
    try congruence; try exact I.
  - destruct H as (-> & -> & Hle & t & Ht & Hty & Hf).
    repeat split; try congruence; [lia|].
    exists t. rewrite Hq. split; [apply lookup_app_l_Some, Ht | auto].
  - destruct H as ((n & -> & Hn1) & p & t & Hle & Ht & Hrest).
    split; [exists n; split; [reflexivity | lia]|].
    exists p, t. rewrite Hq.
    split; [lia|]. split; [apply lookup_app_l_Some, Ht | exact Hrest].
Qed.

Lemma sound_earlier w1 w2 w3 e :
  sound w2 w3 e -> emitters w1 <= emitters w2 -> sound w1 w3 e.
Proof.
  intros H He.
  destruct e as [[n s p ty|n t r|n t r|n]|l ty sp pr| |]; simpl in *;
    try assumption.
  destruct H as ((n & -> & Hn1) & Hrest).
  split; [exists n; split; [reflexivity | lia] | exact Hrest].
Qed.

Lemma sound_dispatched w w' es n :
  Forall (sound w w') es -> elem_of n (dispatched es) ->
  emitters w <= n < emitters w'.
Proof.
  induction 1 as [|e es He _ IH]; intros Hin; [inversion Hin|].
  destruct e as [ev|l ty sp pr| |]; try (apply IH, Hin).
  destruct He as ((m & -> & Hm) & _).
  unfold dispatched in Hin. simpl in Hin.
  apply elem_of_cons in Hin as [->|Hin]; [exact Hm | apply IH, Hin].
Qed.

Lemma evolves_refl w : evolves w w.
Proof.
  split; try reflexivity; try lia.
  - exists []. symmetry. apply app_nil_r.
  - exists []. split; [symmetry; apply app_nil_r|]. split; constructor.
Qed.

Lemma evolves_trans w1 w2 w3 : evolves w1 w2 -> evolves w2 w3 -> evolves w1 w3.
Proof.
  intros [Hn1 Hs1 Ho1 [ts1 Hq1] Hp1 He1 (es1 & Ht1 & Hf1 & Hd1)]
         [Hn2 Hs2 Ho2 [ts2 Hq2] Hp2 He2 (es2 & Ht2 & Hf2 & Hd2)].
  split; try congruence; try lia.
  - exists (ts1 ++ ts2). rewrite Hq2, Hq1. symmetry. apply app_assoc.
  - exists (es1 ++ es2). split; [rewrite Ht2, Ht1; symmetry; apply app_assoc|].
    split.
    + apply Forall_app. split.
      * eapply Forall_impl; [exact Hf1|]. intros e He.
        apply (sound_later w1 w2 w3 e He); eauto.
      * eapply Forall_impl; [exact Hf2|]. intros e He.
        apply (sound_earlier w1 w2 w3 e He He1).
    + rewrite dispatched_app. apply NoDup_app. split; [exact Hd1|].
      split; [|exact Hd2].
      intros n Hin1 Hin2.
      pose proof (sound_dispatched _ _ _ _ Hf1 Hin1).
      pose proof (sound_dispatched _ _ _ _ Hf2 Hin2). lia.
Qed.

Lemma grows_refl w : grows w w.
Proof.
  split; [apply evolves_refl|]. exists []. symmetry. apply app_nil_r.
Qed.

Lemma grows_trans w1 w2 w3 : grows w1 w2 -> grows w2 w3 -> grows w1 w3.
Proof.
  intros [He1 [x1 Hx1]] [He2 [x2 Hx2]].
  split; [eapply evolves_trans; eassumption|].
  exists (x1 ++ x2). rewrite Hx2, Hx1. symmetry. apply app_assoc.
Qed.

(** One effect sent out, the Queue and the heap as they were. *)
Lemma grows_perform w e :
  sound w {| self := self w; store := store w; emitters := emitters w;
             trace := trace w ++ [e] |} e ->
  dispatched [e] = [] ->
  grows w {| self := self w; store := store w; emitters := emitters w;
             trace := trace w ++ [e] |}.
Proof.
  intros Hs Hd. split.
  - split; simpl; try reflexivity; try lia.
    + exists []. symmetry. apply app_nil_r.
    + exists [e]. split; [reflexivity|]. split; [repeat constructor; exact Hs|].
      rewrite Hd. constructor.
  - exists []. symmetry. apply app_nil_r.
Qed.

Lemma grows_slice v : keeps grows (slice v).
Proof.
  intros w. unfold slice.
  destruct v; try apply grows_refl.
  destruct (store w !! l); [|apply grows_refl].
  destruct (decide _);
    [|destruct (own_prop _ _); [destruct (decide _)|]; apply grows_refl].
  simpl. split; [|eexists; reflexivity].
  split; simpl; try reflexivity; try lia.
  - exists []. symmetry. apply app_nil_r.
  - exists []. split; [symmetry; apply app_nil_r|]. split; constructor.
Qed.

Lemma grows_call fn q c : keeps grows (call fn q c).
Proof.
  intros w. unfold call.
  destruct fn; try apply grows_refl.
  destruct (store w !! l); [|apply grows_refl].
  destruct (decide _); [|apply grows_refl].
  apply grows_perform; [exact I | reflexivity].
Qed.

Ltac grows_step :=
  first
    [ apply (keeps_bind grows grows_trans); [|intros ?]
    | apply (keeps_get_self grows grows_refl)
    | apply (keeps_get_property grows grows_refl)
    | apply (keeps_Object_keys grows grows_refl)
    | apply (keeps_ret grows grows_refl)
    | apply grows_slice
    | apply grows_call ].

Lemma grows__fork fs : keeps grows (_fork fs).
Proof.
  unfold _fork. repeat grows_step.
  - destruct (instanceof_Object _); grows_step.
  - apply (keeps_forEach grows grows_refl grows_trans).
    intros k. unfold eachFork. repeat grows_step.
Qed.

Lemma grows_started runner t w :
  _queue (self w) !! _queuePosition (self w) = Some t -> ~ is_fork t ->
  grows w (started runner t w).
Proof.
  intros Ht Hf. split; [|exists []; symmetry; apply app_nil_r].
  split; simpl; try reflexivity; try lia.
  - exists []. symmetry. apply app_nil_r.
  - eexists. split; [reflexivity|]. split; [|constructor].
    constructor; [|constructor]. simpl.
    split; [reflexivity|]. split; [reflexivity|]. split; [lia|].
    exists t. auto.
Qed.

Lemma grows_run runner : keeps grows (run runner).
Proof.
  intros w.
  destruct (_queue (self w) !! _queuePosition (self w)) as [t|] eqn:Ht.
  - destruct (decide (is_fork t)) as [Hf|Hf].
    + rewrite (run_fork _ _ _ Ht Hf). apply grows__fork.
    + rewrite (run_task _ _ _ Ht Hf).
      pose proof (grows_started runner t w Ht Hf) as Hg.
      destruct (exec_cases (type t) (spec t) (started runner t w))
        as [[l ->]| ->]; [|exact Hg].
      simpl. split; [|exists []; symmetry; apply app_nil_r].
      split; simpl; try reflexivity; try lia.
      * exists []. symmetry. apply app_nil_r.
      * eexists. split; [rewrite <- app_assoc; reflexivity|].
        split; [|apply NoDup_singleton].
        constructor; [|constructor; [|constructor]]; simpl.
        { split; [reflexivity|]. split; [reflexivity|]. split; [lia|].
          exists t. auto. }
        split; [exists (emitters w); split; [reflexivity | lia]|].
        exists (_queuePosition (self w)), t. auto.
  - apply lookup_ge_None_1 in Ht. rewrite (run_undefined _ _ Ht).
    apply grows_refl.
Qed.

Lemma grows_advanced w : grows w (advanced w).
Proof.
  split; [|exists []; symmetry; apply app_nil_r].
  split; simpl; try reflexivity; try lia.
  - exists []. symmetry. apply app_nil_r.
  - exists []. split; [symmetry; apply app_nil_r|]. split; constructor.
Qed.

Lemma grows_emitted e w :
  sound w (emitted e w) (Emit e) -> grows w (emitted e w).
Proof. intros Hs. apply grows_perform; [exact Hs | reflexivity]. Qed.

Lemma grows_next : keeps grows next.
Proof.
  intros w.
  destruct (decide (S (_queuePosition (self w)) < length (_queue (self w))))
    as [Hlt|Hge].
  - rewrite next_run by exact Hlt.
    eapply grows_trans; [apply grows_advanced | apply grows_run].
  - rewrite next_end by lia. simpl.
    eapply grows_trans; [apply grows_advanced|].
    apply grows_emitted. reflexivity.
Qed.

Lemma grows__onTaskComplete result : keeps grows (_onTaskComplete result).
Proof.
  intros w. rewrite _onTaskComplete_next.
  eapply grows_trans; [|apply grows_next].
  apply grows_emitted. reflexivity.
Qed.

Lemma grows__onTaskFailed result : keeps grows (_onTaskFailed result).
Proof.
  intros w. rewrite _onTaskFailed_emits. simpl.
  apply grows_emitted. reflexivity.
Qed.

Lemma grows_task ty sp : keeps grows (task ty sp).
Proof.
  intros w. split; [|exists []; symmetry; apply app_nil_r].
  split; simpl; try reflexivity; try lia.
  - eexists. reflexivity.
  - exists []. split; [symmetry; apply app_nil_r|]. split; constructor.
Qed.

Lemma grows_enter m w : grows w (snd (m w)) -> grows w (enter m w).
Proof.
  intros H. unfold enter. destruct (m w) as [[[]|e] w1]; simpl in *;
    [exact H|].
  eapply grows_trans; [exact H|].
  apply grows_perform; [exact I | reflexivity].
Qed.

Lemma evolves_feed1 w i : evolves w (feed1 w i).
Proof.
  destruct i as [ty sp|runner| |p s arg|h]; simpl.
  - apply grows_enter, grows_task.
  - apply grows_enter, grows_run.
  - apply grows_enter, grows_next.
  - destruct (decide _); [|apply evolves_refl].
    destruct s; apply grows_enter;
      [apply grows__onTaskComplete | apply grows__onTaskFailed].
  - split; simpl; try reflexivity; try lia.
    + exists []. symmetry. apply app_nil_r.
    + exists []. split; [symmetry; apply app_nil_r|]. split; constructor.
Qed.

Lemma allocates_feed1 w i : internal i -> allocates w (feed1 w i).
Proof.
  intros Hi. destruct i as [ty sp|runner| |p s arg|h]; simpl.
  - apply grows_enter, grows_task.
  - apply grows_enter, grows_run.
  - apply grows_enter, grows_next.
  - destruct (decide _); [|apply grows_refl].
    destruct s; apply grows_enter;
      [apply grows__onTaskComplete | apply grows__onTaskFailed].
  - destruct Hi.
Qed.

Lemma evolves_feed ins : forall w, evolves w (feed w ins).
Proof.
  induction ins as [|i ins IH]; intros w; [apply evolves_refl|].
  eapply evolves_trans; [apply evolves_feed1 | apply IH].
Qed.

Lemma allocates_feed ins : forall w,
  Forall internal ins -> allocates w (feed w ins).
Proof.
  induction ins as [|i ins IH]; intros w Hi.
  - exists []. symmetry. apply app_nil_r.
  - apply Forall_cons in Hi as [Hi His].
    destruct (allocates_feed1 w i Hi) as [x1 Hx1].
    destruct (IH (feed1 w i) His) as [x2 Hx2].
    exists (x1 ++ x2).
    change (feed w (i :: ins)) with (feed (feed1 w i) ins).
    rewrite Hx2, Hx1. symmetry. apply app_assoc.
Qed.

(** X11: no method of the Queue writes its name, its ancestry or its
    options, takes a task away or moves the cursor back.  Through any
    sequence of calls of [task], [run] and [next] and of signals, the name,
    the ancestry and the options are as the Queue had them, the tasks are
    those it had with tasks appended, the cursor is where it was or further;
    every event emitted carries the name, and every [taskStarted] the
    ancestry.  (What code outside does to the ancestry array and to the task
    records, which the events hand to the listeners as they are, is not
    part of this.) *)
Theorem queue_keeps_its_identity w ins :
  Forall internal ins ->
  let w' := feed w ins in
  _name (self w') = _name (self w) /\
  _queueStack (self w') = _queueStack (self w) /\
  _options (self w') = _options (self w) /\
  (exists ts, _queue (self w') = _queue (self w) ++ ts) /\
  _queuePosition (self w) <= _queuePosition (self w') /\
  exists es, trace w' = trace w ++ es /\
             Forall (carries (_name (self w)) (_queueStack (self w))) es.
Proof.
  intros _.
  destruct (evolves_feed ins w)
    as [Hn Hs Ho Hq Hp _ (es & Ht & Hf & _)].
  cbv zeta. repeat (split; [assumption|]).
  exists es. split; [exact Ht|].
  eapply Forall_impl; [exact Hf|]. intros e He.
  destruct e as [[n s p ty|n t r|n t r|n]|l ty sp pr| |]; simpl in *;
    try exact I; try congruence.
  destruct He as (-> & -> & _). auto.
Qed.

Lemma queue_keeps_its_identity_witness :
  let w := build [files] in
  let w' := feed w [ITask (VString "write") (VString "out.js");
                    IRun (VRef 0); INext;
                    ISignal 0 complete (VString "R1")] in
  _name (self w') = _name (self w) /\
  _queueStack (self w') = _queueStack (self w) /\
  _options (self w') = _options (self w) /\
  (exists ts, _queue (self w') = _queue (self w) ++ ts) /\
  _queuePosition (self w) <= _queuePosition (self w') /\
  exists es, trace w' = trace w ++ es /\
             Forall (carries (_name (self w)) (_queueStack (self w))) es.
Proof.
  apply (queue_keeps_its_identity (build [files])
           [ITask (VString "write") (VString "out.js");
            IRun (VRef 0); INext; ISignal 0 complete (VString "R1")]).
  repeat constructor.
Defined.

(** X12: whatever is done to a Queue, each [taskStarted] it emits and each
    call of [exec] it makes is for a task of the Queue that is not a fork,
    at or before the cursor, with the type (and the specification) of that
    task: a fork is never announced and never handed to a runner.  Each call
    of [exec] hands over a promise, made for it: no promise is handed over
    twice. *)
Theorem dispatch_is_for_tasks_on_new_promises w ins :
  let w' := feed w ins in
  exists es, trace w' = trace w ++ es /\
             Forall (is_for_a_task (self w')) es /\
             NoDup (dispatched es) /\
             forall n, elem_of n (dispatched es) ->
                       emitters w <= n < emitters w'.
Proof.
  destruct (evolves_feed ins w) as [_ _ _ _ _ _ (es & Ht & Hf & Hd)].
  cbv zeta. exists es. split; [exact Ht|]. split; [|split; [exact Hd|]].
  - eapply Forall_impl; [exact Hf|]. intros e He.
    destruct e as [[n s p ty|n t r|n t r|n]|l ty sp pr| |]; simpl in *;
      try exact I.
    + destruct He as (_ & _ & Hrest). exact Hrest.
    + destruct He as ((n & -> & _) & Hrest). split; [eexists; reflexivity|].
      exact Hrest.
  - intros n Hin. apply (sound_dispatched _ _ _ _ Hf Hin).
Qed.

(** X13: the Queue never writes to an object of the heap.  Whatever calls
    and signals reach it, every object that was in the heap is still there
    with the same properties afterwards -- the state of the runner among
    them; a fork only adds the array of its snapshot. *)
Theorem heap_is_only_extended w ins l o :
  Forall internal ins ->
  store w !! l = Some o ->
  store (feed w ins) !! l = Some o.
Proof.
  intros Hi Hl. destruct (allocates_feed ins w Hi) as [ext ->].
  apply lookup_app_l_Some, Hl.
Qed.

Lemma heap_is_only_extended_witness :
  store (feed (build [files; fork])
           [IRun (VRef 0); ISignal 0 complete (VString "R1")]) !! 1 =
  Some {| class_of := ClassArray; props := [("0", VRef 2)] |}.
Proof.
  apply (heap_is_only_extended (build [files; fork])
           [IRun (VRef 0); ISignal 0 complete (VString "R1")] 1
           {| class_of := ClassArray; props := [("0", VRef 2)] |}).
  - repeat constructor.
  - reflexivity.
Defined.

(** ** A fork ends the chain of its Queue *)

Lemma enter_run_at_fork runner w t :
  _queue (self w) !! _queuePosition (self w) = Some t -> is_fork t ->
  dispatched (trace (enter (run runner) w)) = dispatched (trace w).
Proof.
  intros Ht Hf. unfold enter. rewrite (run_fork _ _ _ Ht Hf).
  pose proof (forked__fork (spec t) w) as (_ & _ & cs & Htr & Hcs).
  destruct (_fork (spec t) w) as [[[]|e] w1]; simpl in *;
    rewrite Htr, ?dispatched_app, (calls_dispatched cs Hcs);
    simpl; rewrite ?app_nil_r; reflexivity.
Qed.

Lemma enter_complete_at_fork arg w t :
  _queue (self w) !! S (_queuePosition (self w)) = Some t -> is_fork t ->
  dispatched (trace (enter (_onTaskComplete arg) w)) = dispatched (trace w).
Proof.
  intros Ht Hf.
  set (w1 := emitted (taskComplete (_name (self w))
                (_queue (self w) !! _queuePosition (self w)) arg) w).
  rewrite (enter_ext (_onTaskComplete arg) (run (_runner (self w1))) w
             (advanced w1)).
  - rewrite (enter_run_at_fork _ (advanced w1) t Ht Hf). simpl.
    rewrite dispatched_app. simpl. apply app_nil_r.
  - rewrite _onTaskComplete_next. apply next_run.
    apply (lookup_lt_Some _ _ _ Ht).
Qed.

Lemma held_start q h runner k t :
  _queuePosition q = 0 -> _queue q !! k = Some t -> is_fork t ->
  held_at k (feed1 (world_of q h) (IRun runner)) [].
Proof.
  intros Hp Ht Hf. split; [apply orderly_start, Hp|].
  destruct (enter_run runner (world_of q h))
    as ((_ & Hpos & _) & es & Hes & Hqc & _).
  unfold appends in Hes. simpl in *.
  split; [lia|]. split; [rewrite Hes; exact Hqc|].
  intros p [Hin _]. rewrite Hpos, Hp.
  destruct k as [|k]; [|lia]. exfalso.
  rewrite (enter_run_at_fork runner (world_of q h) t) in Hin;
    simpl; rewrite ?Hp; try assumption.
  inversion Hin.
Qed.

Lemma held_signal k t w signalled p s arg :
  _queue (self w) !! k = Some t -> is_fork t ->
  held_at k w signalled -> pending w signalled p ->
  held_at k (feed1 w (ISignal p s arg)) (p :: signalled).
Proof.
  intros Ht Hf (Ho & Hle & Hqc & Hpend) Hp.
  split; [apply orderly_signal; assumption|].
  pose proof (Hpend p Hp) as Hlt.
  destruct (one_pending _ _ Ho p Hp) as (_ & _ & Huniq).
  assert (Hlt' : p < emitters w) by (apply (promises_exist _ _ Ho), Hp).
  assert (Hold : forall p', elem_of p' (dispatched (trace w)) ->
                            ~ elem_of p' (p :: signalled) -> False).
  { intros p' Hin Hn. apply Hn.
    destruct (decide (p' = p)) as [->|Hne]; [left|]. right.
    destruct (decide (elem_of p' signalled)) as [|Hns]; [assumption|].
    exfalso. apply Hne, Huniq. split; assumption. }
  simpl. destruct (decide (p < emitters w)) as [_|Hn]; [|contradiction].
  destruct s; simpl.
  - destruct (enter_complete arg w) as (_ & Hpos & _ & es & Hes & _ & Hc).
    simpl in Hpos, Hes, Hc. unfold appends in Hes.
    split; [lia|]. split.
    { rewrite Hes, count_app, Hqc.
      destruct Hc as [(_ & Hq & _)|(Hge & _)]; [exact Hq|].
      apply lookup_lt_Some in Ht. lia. }
    intros p' [Hin Hn]. rewrite Hpos.
    destruct (decide (S (_queuePosition (self w)) = k)) as [Hk|Hk]; [|lia].
    exfalso. subst k.
    rewrite (enter_complete_at_fork arg w t Ht Hf) in Hin.
    exact (Hold p' Hin Hn).
  - rewrite enter_failed. simpl.
    split; [exact Hle|]. split; [rewrite count_app, Hqc; reflexivity|].
    intros p' [Hin Hn]. exfalso. simpl in Hin.
    rewrite dispatched_app in Hin. simpl in Hin. rewrite app_nil_r in Hin.
    exact (Hold p' Hin Hn).
Qed.

Lemma drive_held k t es : forall w signalled w',
  _queue (self w) !! k = Some t -> is_fork t ->
  held_at k w signalled -> drive w signalled es = Some w' ->
  exists signalled', held_at k w' signalled'.
Proof.
  induction es as [|[h|p s arg] es IH]; intros w signalled w' Ht Hf Hh Hd;
    simpl in Hd.
  - injection Hd as <-. eauto.
  - apply (IH (feed1 w (IExternal h)) signalled w'); try assumption.
    destruct Hh as (Ho & Hrest).
    split; [apply orderly_mutate, Ho | exact Hrest].
  - destruct (decide _) as [Hpend|_]; [|discriminate].
    apply (IH (feed1 w (ISignal p s arg)) (p :: signalled) w');
      try assumption.
    + rewrite (feed1_same_tasks w (ISignal p s arg)) by discriminate.
      exact Ht.
    + apply (held_signal k t); assumption.
Qed.

Lemma drive_evolves es : forall w signalled w',
  drive w signalled es = Some w' -> evolves w w'.
Proof.
  induction es as [|[h|p s arg] es IH]; intros w signalled w' Hd; simpl in Hd.
  - injection Hd as <-. apply evolves_refl.
  - eapply evolves_trans; [|eapply IH, Hd].
    apply (evolves_feed1 w (IExternal h)).
  - destruct (decide _); [|discriminate].
    eapply evolves_trans; [|eapply IH, Hd].
    apply (evolves_feed1 w (ISignal p s arg)).
Qed.

(** X14: a fork ends the chain of its Queue.  In a run -- [run] called once
    on a Queue whose cursor is at 0, then signals under the contract of the
    runner -- of a Queue that has a fork at position [k], the cursor never
    passes [k], [queueComplete] is never emitted, and no task after the fork
    is ever started. *)
Theorem fork_ends_the_chain q h runner es w k t :
  _queuePosition q = 0 ->
  _queue q !! k = Some t ->
  is_fork t ->
  drive (feed1 (world_of q h) (IRun runner)) [] es = Some w ->
  _queuePosition (self w) <= k /\
  ~ completed w /\
  forall nm st p ty, In (Emit (taskStarted nm st p ty)) (trace w) -> p < k.
Proof.
  intros Hp Ht Hf Hd.
  assert (Ht1 : _queue (self (feed1 (world_of q h) (IRun runner))) !! k = Some t).
  { rewrite (feed1_same_tasks (world_of q h) (IRun runner)) by discriminate.
    exact Ht. }
  destruct (drive_held k t es _ [] w Ht1 Hf (held_start q h runner k t Hp Ht Hf) Hd)
    as (signalled & _ & Hle & Hqc & _).
  split; [exact Hle|]. split; [unfold completed; lia|].
  intros nm st p ty Hin.
  assert (Hev : evolves (world_of q h) w).
  { eapply evolves_trans; [apply (evolves_feed1 _ (IRun runner))|].
    eapply drive_evolves, Hd. }
  destruct Hev as [_ _ _ _ _ _ (evs & Htr & Hs & _)].
  simpl in Htr. rewrite Htr in Hin.
  rewrite List.Forall_forall in Hs. apply Hs in Hin.
  destruct Hin as (_ & _ & Hple & t' & Ht' & _ & Hnf).
  assert (Hq : _queue (self w) = _queue q).
  { rewrite (drive_same_tasks _ _ _ _ Hd).
    apply (feed1_same_tasks (world_of q h) (IRun runner)). discriminate. }
  rewrite Hq in Ht'.
  destruct (decide (p = k)) as [->|Hne]; [|lia].
  rewrite Ht in Ht'. injection Ht' as <-. contradiction.
Qed.

Lemma fork_ends_the_chain_witness :
  let w := feed (world_of (build_queue [files; fork; write]) scene)
             [IRun (VRef 0); ISignal 0 complete (VString "R1")] in
  _queuePosition (self w) <= 1 /\
  ~ completed w /\
  forall nm st p ty, In (Emit (taskStarted nm st p ty)) (trace w) -> p < 1.
Proof.
  apply (fork_ends_the_chain (build_queue [files; fork; write]) scene (VRef 0)
           [Signal 0 complete (VString "R1")] _ 1 fork).
  - reflexivity.
  - reflexivity.
  - reflexivity.
  - reflexivity.
Defined.
